(** * rain/snow.js: a shallow embedding of the rain effect and its properties

    The development follows [src/rain/snow.js]: the [rainflake] class (a DOM
    element whose position lives in [style.left] / [style.top] as a pixel
    string), the [Controller] class (one layer: pool, viewport snapshot,
    [active] flag, interval handle) and the [aSocketrain.command]
    dispatcher.  The browser is modelled by what the script can observe of
    it: the elements it created, the timers it registered, and the values
    [Math.random] returned. *)

From Stdlib Require Import ZArith Ascii String DecimalString DecimalZ DecimalPos.
From stdpp Require Import list strings.

Local Open Scope Z_scope.

(** ** Numbers and strings

    Pixel values are modelled on the integers.  [NaN] is the one non-finite
    value kept: it stands for JavaScript's [NaN] and for [undefined] used as
    an operand, which both turn every sum into [NaN] and every comparison
    into [false]. *)

Inductive num : Type :=
  | Int (z : Z)
  | NaN.

Definition nadd (a b : num) : num :=
  match a, b with
  | Int x, Int y => Int (x + y)
  | _, _ => NaN
  end.

Definition nsub (a b : num) : num :=
  match a, b with
  | Int x, Int y => Int (x - y)
  | _, _ => NaN
  end.

(** [a > b] *)
Definition ngt (a b : num) : bool :=
  match a, b with
  | Int x, Int y => y <? x
  | _, _ => false
  end.

(** [String(v)], as string concatenation applies it to a number. *)
Definition ToString (v : num) : string :=
  match v with
  | Int z => NilZero.string_of_int (Z.to_int z)
  | NaN => "NaN"
  end.

Definition digits (s : string) : option Z :=
  match s with
  | EmptyString => None
  | _ => option_map Z.of_uint (NilEmpty.uint_of_string s)
  end.

(** [Number(s)] on the integer literals: the empty string is [0], an
    optional sign followed by decimal digits is that integer, anything else
    is [NaN]. *)
Definition Number (s : string) : num :=
  match s with
  | EmptyString => Int 0
  | String c t =>
      if Ascii.eqb c "-"
      then match digits t with Some n => Int (- n) | None => NaN end
      else if Ascii.eqb c "+"
      then match digits t with Some n => Int n | None => NaN end
      else match digits s with Some n => Int n | None => NaN end
  end.

(** [s.replace(pat, rep)] with a string pattern: only the first occurrence
    of [pat] is replaced. *)
Fixpoint replace (pat rep s : string) : string :=
  if String.prefix pat s
  then String.append rep (String.substring (String.length pat) (String.length s - String.length pat) s)
  else match s with
       | EmptyString => EmptyString
       | String c t => String c (replace pat rep t)
       end.

(** [value + 'px'] *)
Definition px (value : num) : string := String.append (ToString value) "px".

(** [Number(s.replace('px', ''))] *)
Definition unpx (s : string) : num := Number (replace "px" "" s).

(** ** The page as the script sees it *)

(** A [rainflake] object with its [element].  The [style] properties are
    string cells holding what was last assigned; [attached] says whether the
    element is a child of the container. *)
Record Element : Type := {
  style_left : string;
  style_top : string;
  style_filter : string;
  attached : bool
}.

(** What [getBoundingClientRect] returns: the box's left and top edges
    [x] and [y], and its size. *)
Module DOMRect.
Record t : Type := { x : num; y : num; width : num; height : num }.
End DOMRect.

(** What the script has built up in the browser.  A rainflake reference is
    an index into [flakes].  An entry [(h, k)] of [intervals] is the
    registration with handle [h] of [() => { this.animate(); }] for
    controller [k]; an entry [(k, i)] of [timeouts] is a call of
    [generate] on controller [k] suspended at its [await] with loop
    variable [i].  [random n w] is the value of [Math.random() * w] at the
    [n]-th call of [Math.random]. *)
Record Env : Type := {
  flakes : list Element;
  intervals : list (nat * nat);
  timeouts : list (nat * Z);
  next_timer : nat;
  draws : nat;
  random : nat -> num -> num
}.

Definition set_flakes (fs : list Element) (e : Env) : Env :=
  {| flakes := fs; intervals := intervals e; timeouts := timeouts e;
     next_timer := next_timer e; draws := draws e; random := random e |}.

Definition set_intervals (l : list (nat * nat)) (e : Env) : Env :=
  {| flakes := flakes e; intervals := l; timeouts := timeouts e;
     next_timer := next_timer e; draws := draws e; random := random e |}.

Definition set_timeouts (l : list (nat * Z)) (e : Env) : Env :=
  {| flakes := flakes e; intervals := intervals e; timeouts := l;
     next_timer := next_timer e; draws := draws e; random := random e |}.

(** A fresh timer handle: [setInterval] and [setTimeout] draw from one
    counter. *)
Definition take_handle (e : Env) : nat * Env :=
  (next_timer e,
   {| flakes := flakes e; intervals := intervals e; timeouts := timeouts e;
      next_timer := S (next_timer e); draws := draws e; random := random e |}).

(** [Math.random() * w] *)
Definition Math_random_times (w : num) (e : Env) : num * Env :=
  (random e (draws e) w,
   {| flakes := flakes e; intervals := intervals e; timeouts := timeouts e;
      next_timer := next_timer e; draws := S (draws e); random := random e |}).

(** ** class rainflake *)

(** The rules injected by [injectCSS]: [.rainflake { height: 30px; width: 3px }]. *)
Definition css_width : Z := 3.
Definition css_height : Z := 30.

(** [new rainflake(x, y, container, blur)] *)
Definition new_rainflake (x y blur : num) (e : Env) : nat * Env :=
  (length (flakes e),
   set_flakes (flakes e ++ [ {| style_left := px x;
                                style_top := px y;
                                style_filter := String.append "blur(" (String.append (ToString blur) "px)");
                                attached := true |} ]) e).

Definition get_top (f : nat) (e : Env) : num :=
  match flakes e !! f with
  | Some el => unpx (style_top el)
  | None => NaN
  end.

Definition set_top (f : nat) (value : num) (e : Env) : Env :=
  set_flakes
    (alter (fun el => {| style_left := style_left el; style_top := px value;
                         style_filter := style_filter el; attached := attached el |})
           f (flakes e)) e.

Definition get_left (f : nat) (e : Env) : num :=
  match flakes e !! f with
  | Some el => unpx (style_left el)
  | None => NaN
  end.

Definition set_left (f : nat) (value : num) (e : Env) : Env :=
  set_flakes
    (alter (fun el => {| style_left := px value; style_top := style_top el;
                         style_filter := style_filter el; attached := attached el |})
           f (flakes e)) e.

(** [element.getBoundingClientRect()].  The container is the fixed overlay
    at the viewport's origin, so an attached flake's box starts at its
    [left] / [top] and has the size the style sheet gives it; an element
    outside the document has the empty box at the origin. *)
Definition getBoundingClientRect (el : Element) : DOMRect.t :=
  if attached el
  then {| DOMRect.x := unpx (style_left el); DOMRect.y := unpx (style_top el);
          DOMRect.width := Int css_width; DOMRect.height := Int css_height |}
  else {| DOMRect.x := Int 0; DOMRect.y := Int 0;
          DOMRect.width := Int 0; DOMRect.height := Int 0 |}.

Definition bounds (f : nat) (e : Env) : DOMRect.t :=
  match flakes e !! f with
  | Some el => getBoundingClientRect el
  | None => {| DOMRect.x := NaN; DOMRect.y := NaN; DOMRect.width := NaN; DOMRect.height := NaN |}
  end.

(** [rainflake.element.remove()] *)
Definition element_remove (f : nat) (e : Env) : Env :=
  set_flakes
    (alter (fun el => {| style_left := style_left el; style_top := style_top el;
                         style_filter := style_filter el; attached := false |})
           f (flakes e)) e.

Definition is_attached (f : nat) (e : Env) : bool :=
  match flakes e !! f with
  | Some el => attached el
  | None => false
  end.

(** ** class Controller *)

Record CONFIG : Type := {
  LIMIT : Z;
  BLUR : Z;
  FALL_RATE : Z;
  SWAY_RATE : Z
}.

Record Document : Type := { width : num; height : num }.

(** [active] and [interval] start out [undefined], which the code only
    tests for truth ([false]) and hands to [clearInterval] ([None]). *)
Record Controller : Type := {
  config : CONFIG;
  rainflakes : list nat;
  document : Document;
  active : bool;
  interval : option nat
}.

Definition set_rainflakes (l : list nat) (this : Controller) : Controller :=
  {| config := config this; rainflakes := l; document := document this;
     active := active this; interval := interval this |}.

Definition set_document (d : Document) (this : Controller) : Controller :=
  {| config := config this; rainflakes := rainflakes this; document := d;
     active := active this; interval := interval this |}.

Definition set_active (b : bool) (this : Controller) : Controller :=
  {| config := config this; rainflakes := rainflakes this; document := document this;
     active := b; interval := interval this |}.

Definition set_interval (h : option nat) (this : Controller) : Controller :=
  {| config := config this; rainflakes := rainflakes this; document := document this;
     active := active this; interval := h |}.

(** [array.indexOf(v)]: the first index holding [v], or [-1]. *)
Fixpoint indexOf (v : nat) (l : list nat) : Z :=
  match l with
  | [] => -1
  | a :: t => if Nat.eqb a v then 0
              else let r := indexOf v t in if r <? 0 then -1 else r + 1
  end.

(** [array.splice(start, deleteCount)]: a negative [start] counts from the
    end, and both arguments are clamped to the array. *)
Definition splice {A} (start deleteCount : Z) (l : list A) : list A :=
  let len := Z.of_nat (length l) in
  let actualStart := if start <? 0 then Z.max (len + start) 0 else Z.min start len in
  let actualDeleteCount := Z.min (Z.max deleteCount 0) (len - actualStart) in
  take (Z.to_nat actualStart) l ++ drop (Z.to_nat (actualStart + actualDeleteCount)) l.

(** [spawn()] *)
Definition spawn (this : Controller) (e : Env) : Controller * Env :=
  let '(x0, e) := Math_random_times (width (document this)) e in
  let '(flake, e) := new_rainflake x0 (Int 0) (Int (BLUR (config this))) e in
  (set_rainflakes (rainflakes this ++ [flake]) this, e).

(** [generate()] is an async function: it runs up to its [await], where it
    leaves a timeout behind, and goes on from there when the timeout fires.
    [generate_loop] is the loop from its test [i < LIMIT] to the [await];
    [generate_resume] is what follows the [await] up to the next one. *)
Definition generate_loop (self : nat) (i : Z) (this : Controller) (e : Env) : Env :=
  if i <? LIMIT (config this)
  then let '(_, e) := Math_random_times (Int 400) e in
       let '(_, e) := take_handle e in
       set_timeouts (timeouts e ++ [(self, i)]) e
  else e.

Definition generate (self : nat) (this : Controller) (e : Env) : Env :=
  generate_loop self (Z.of_nat (length (rainflakes this))) this e.

Definition generate_resume (self : nat) (i : Z) (this : Controller) (e : Env)
  : Controller * Env :=
  if negb (active this) then (this, e)
  else let '(this, e) := spawn this e in
       (this, generate_loop self (i + 1) this e).

(** [start()] *)
Definition start (self : nat) (this : Controller) (e : Env) : Controller * Env :=
  if active this then (this, e)
  else let this := set_active true this in
       let e := generate self this e in
       let '(h, e) := take_handle e in
       let e := set_intervals (intervals e ++ [(h, self)]) e in
       (set_interval (Some h) this, e).

(** [remove(rainflake)] *)
Definition remove (flake : nat) (this : Controller) (e : Env) : Controller * Env :=
  let this := set_rainflakes (splice (indexOf flake (rainflakes this)) 1 (rainflakes this)) this in
  (this, element_remove flake e).

Definition out_of_bounds (doc : Document) (b : DOMRect.t) : bool :=
  ngt (DOMRect.x b) (nadd (width doc) (DOMRect.width b))
  || ngt (DOMRect.y b) (nadd (height doc) (DOMRect.height b)).

(** The body of the loop in [animate], for the flake the iterator yields. *)
Definition animate_flake (flake : nat) (this : Controller) (e : Env) : Controller * Env :=
  let e := set_top flake (nadd (get_top flake e) (Int (FALL_RATE (config this)))) e in
  if out_of_bounds (document this) (bounds flake e)
  then let '(this, e) := remove flake this e in spawn this e
  else (this, e).

(** [for (const rainflake of this.rainflakes)]: the array iterator reads
    [rainflakes[index]] anew at every step and stops once [index] has
    reached the current length, so it sees what the body splices out and
    pushes. *)
Fixpoint animate_from (fuel index : nat) (this : Controller) (e : Env) : Controller * Env :=
  match fuel with
  | O => (this, e)
  | S fuel =>
      match rainflakes this !! index with
      | None => (this, e)
      | Some flake =>
          let '(this, e) := animate_flake flake this e in
          animate_from fuel (S index) this e
      end
  end.

(** [animate()] *)
Definition animate (this : Controller) (e : Env) : Controller * Env :=
  animate_from (length (rainflakes this)) 0 this e.

(** [clear()] *)
Definition clear (this : Controller) (e : Env) : Controller * Env :=
  let e := foldl (fun e flake => element_remove flake e) e (rainflakes this) in
  (set_rainflakes [] this, e).

(** [clearInterval(h)] *)
Definition clearInterval (h : option nat) (e : Env) : Env :=
  match h with
  | Some h => set_intervals (filter (fun r => r.1 <> h) (intervals e)) e
  | None => e
  end.

(** [stop()] *)
Definition stop (this : Controller) (e : Env) : Controller * Env :=
  let this := set_active false this in
  let e := clearInterval (interval this) e in
  (set_interval None this, e).

(** [resize(width, height)] *)
Definition resize (width0 height0 : num) (this : Controller) (e : Env) : Controller * Env :=
  let e := foldl (fun e flake =>
                    let e := set_left flake (nadd (get_left flake e)
                                                  (nsub width0 (width (document this)))) e in
                    set_top flake (nadd (get_top flake e)
                                        (nsub height0 (height (document this)))) e)
                 e (rainflakes this) in
  (set_document {| width := width0; height := height0 |} this, e).

(** [aSocketrain.CONFIG] *)
Definition aSocketrain_CONFIG : list CONFIG :=
  [ {| LIMIT := 30; BLUR := 0; FALL_RATE := 50; SWAY_RATE := 0 |};
    {| LIMIT := 30; BLUR := 0; FALL_RATE := 30; SWAY_RATE := 0 |};
    {| LIMIT := 30; BLUR := 0; FALL_RATE := 30; SWAY_RATE := 0 |} ].

(** ** The page: [aSocketrain.controllers] and the event loop *)

(** A controller reference is an index into [controllers]. *)
Record World : Type := {
  controllers : list Controller;
  env : Env
}.

(** Run a method on controller [k], with [this] bound to it. *)
Definition invoke (m : nat -> Controller -> Env -> Controller * Env) (k : nat) (w : World) : World :=
  match controllers w !! k with
  | Some this =>
      let '(this, e) := m k this (env w) in
      {| controllers := <[k := this]> (controllers w); env := e |}
  | None => w
  end.

(** [new Controller(body, config)], where [doc] is what
    [document.documentElement] reports.  The constructor ends in
    [this.start()]; [main] then pushes the object onto
    [aSocketrain.controllers], which fixes its index. *)
Definition new_Controller (layer : CONFIG) (doc : Document) (w : World) : World :=
  let self := length (controllers w) in
  let this := {| config := layer; rainflakes := []; document := doc;
                 active := false; interval := None |} in
  let '(this, e) := start self this (env w) in
  {| controllers := controllers w ++ [this]; env := e |}.

(** The page before [main]: nothing created, timer handles start at 1. *)
Definition blank (rnd : nat -> num -> num) : World :=
  {| controllers := [];
     env := {| flakes := []; intervals := []; timeouts := [];
               next_timer := 1; draws := 0; random := rnd |} |}.

(** [aSocketrain.main()] for a configuration [layers]. *)
Definition main (layers : list CONFIG) (doc : Document) (rnd : nat -> num -> num) : World :=
  foldl (fun w layer => new_Controller layer doc w) (blank rnd) layers.

(** The ['resize'] listener installed by [main]. *)
Definition on_resize (clientWidth clientHeight : num) (w : World) : World :=
  foldl (fun w k => invoke (fun _ => resize clientWidth clientHeight) k w)
        w (seq 0 (length (controllers w))).

(** What the timers do when they come due.  [Tick n] is a firing of the
    [n]-th registered interval, [Delay n] the end of the [n]-th pending
    delay of a [generate]; the delays are random, so they may end in any
    order. *)
Inductive timer : Type :=
  | Tick (n : nat)
  | Delay (n : nat).

Definition fire (t : timer) (w : World) : World :=
  match t with
  | Tick n =>
      match intervals (env w) !! n with
      | Some (_, k) => invoke (fun _ => animate) k w
      | None => w
      end
  | Delay n =>
      match timeouts (env w) !! n with
      | Some (k, i) =>
          invoke (fun self => generate_resume self i) k
                 {| controllers := controllers w;
                    env := set_timeouts (delete n (timeouts (env w))) (env w) |}
      | None => w
      end
  end.

Definition elapse (ts : list timer) (w : World) : World :=
  foldl (fun w t => fire t w) w ts.

(** ** [aSocketrain.command] *)

Inductive method : Type :=
  | m_start | m_spawn | m_generate | m_animate
  | m_remove | m_clear | m_stop | m_resize.

(** What [controller[cmd]] can be, as far as [command] can tell. *)
Inductive property : Type :=
  | Undefined
  | Field (truthy : bool)       (* a value that is not a function *)
  | Method (m : method)         (* a method of class Controller *)
  | Function (throws : bool).   (* another function, called without arguments *)

(** Own properties, assigned by the constructor, [start] and [stop].  Timer
    handles are positive numbers. *)
Definition own_properties (this : Controller) : list (string * property) :=
  [ ("body", Field true); ("config", Field true); ("rainflakes", Field true);
    ("document", Field true); ("active", Field (active this));
    ("interval", Field (match interval this with
                        | Some h => negb (Nat.eqb h 0)
                        | None => false
                        end)) ]%string.

(** [Controller.prototype]; a class constructor throws when called without
    [new]. *)
Definition Controller_prototype : list (string * property) :=
  [ ("constructor", Function true);
    ("start", Method m_start); ("spawn", Method m_spawn);
    ("generate", Method m_generate); ("animate", Method m_animate);
    ("remove", Method m_remove); ("clear", Method m_clear);
    ("stop", Method m_stop); ("resize", Method m_resize) ]%string.

(** [Object.prototype], which every controller inherits from. *)
Definition Object_prototype : list (string * property) :=
  [ ("__defineGetter__", Function true); ("__defineSetter__", Function true);
    ("hasOwnProperty", Function false); ("__lookupGetter__", Function false);
    ("__lookupSetter__", Function false); ("isPrototypeOf", Function false);
    ("propertyIsEnumerable", Function false); ("toString", Function false);
    ("valueOf", Function false); ("__proto__", Field true);
    ("toLocaleString", Function false) ]%string.

Fixpoint assoc (name : string) (l : list (string * property)) : property :=
  match l with
  | [] => Undefined
  | (n, p) :: l => if String.eqb n name then p else assoc name l
  end.

(** [controller[cmd]] *)
Definition get (this : Controller) (cmd : string) : property :=
  assoc cmd (own_properties this ++ Controller_prototype ++ Object_prototype).

Definition truthy (p : property) : bool :=
  match p with
  | Undefined => false
  | Field b => b
  | Method _ => true
  | Function _ => true
  end.

Inductive completion : Type :=
  | Normal (w : World)
  | TypeError (w : World).

(** [controller[cmd]()] for a method of the class: every parameter is
    [undefined].  [remove(undefined)] splices, then fails on
    [undefined.element]. *)
Definition call_method (m : method) (k : nat) (w : World) : completion :=
  match m with
  | m_start => Normal (invoke start k w)
  | m_spawn => Normal (invoke (fun _ => spawn) k w)
  | m_generate => Normal (invoke (fun self this e => (this, generate self this e)) k w)
  | m_animate => Normal (invoke (fun _ => animate) k w)
  | m_remove =>
      TypeError (invoke (fun _ this e =>
                           (set_rainflakes (splice (-1) 1 (rainflakes this)) this, e)) k w)
  | m_clear => Normal (invoke (fun _ => clear) k w)
  | m_stop => Normal (invoke (fun _ => stop) k w)
  | m_resize => Normal (invoke (fun _ => resize NaN NaN) k w)
  end.

(** [controller[cmd]();] *)
Definition call (cmd : string) (k : nat) (w : World) : completion :=
  match controllers w !! k with
  | Some this =>
      match get this cmd with
      | Method m => call_method m k w
      | Function false => Normal w
      | Function true | Field _ | Undefined => TypeError w
      end
  | None => Normal w
  end.

Fixpoint command_each (cmd : string) (ks : list nat) (w : World) : completion :=
  match ks with
  | [] => Normal w
  | k :: ks =>
      match call cmd k w with
      | Normal w => command_each cmd ks w
      | TypeError w => TypeError w
      end
  end.

(** [aSocketrain.command(cmd)]; reading a property of
    [aSocketrain.controllers[0]] fails when there is no controller. *)
Definition command (cmd : string) (w : World) : completion :=
  match controllers w !! 0%nat with
  | None => TypeError w
  | Some first =>
      if negb (truthy (get first cmd)) then Normal w
      else command_each cmd (seq 0 (length (controllers w))) w
  end.

(** ** The accessors and [resize] over the numbers of the language

    [String(v)], [Number(s)], [+] and [-] are built into the language and
    work on IEEE doubles; [num] above follows them on the integers.  The
    accessors of [rainflake] and [resize] use nothing else of numbers.
    They are given here once more, as the source has them, over any type
    of numbers with these four operations, so that what is proved of them
    does not rest on [num]: it holds of the doubles with the operations of
    the language, and of [num] with its own ([integers] below). *)
Record Numbers : Type := {
  js_number : Type;
  js_String : js_number -> string;               (* [String(v)], as in [v + 'px'] *)
  js_Number : string -> js_number;               (* [Number(s)] *)
  js_add : js_number -> js_number -> js_number;  (* [a + b] *)
  js_sub : js_number -> js_number -> js_number   (* [a - b] *)
}.

Module Any.

(** [value + 'px'] *)
Definition px (N : Numbers) (value : js_number N) : string :=
  String.append (js_String N value) "px".

(** [Number(s.replace('px', ''))] *)
Definition unpx (N : Numbers) (s : string) : js_number N :=
  js_Number N (replace "px" "" s).

(** [get top()] and [set top(value)], on the element of the flake. *)
Definition get_top (N : Numbers) (el : Element) : js_number N := unpx N (style_top el).

Definition set_top (N : Numbers) (value : js_number N) (el : Element) : Element :=
  {| style_left := style_left el; style_top := px N value;
     style_filter := style_filter el; attached := attached el |}.

(** [get left()] and [set left(value)] *)
Definition get_left (N : Numbers) (el : Element) : js_number N := unpx N (style_left el).

Definition set_left (N : Numbers) (value : js_number N) (el : Element) : Element :=
  {| style_left := px N value; style_top := style_top el;
     style_filter := style_filter el; attached := attached el |}.

(** The body of the loop in [resize], where [(w1, h1)] is [this.document]. *)
Definition resize_flake (N : Numbers) (width0 height0 w1 h1 : js_number N) (el : Element)
  : Element :=
  let el := set_left N (js_add N (get_left N el) (js_sub N width0 w1)) el in
  set_top N (js_add N (get_top N el) (js_sub N height0 h1)) el.

(** [resize(width, height)] on the elements [fs], for the pool [pool] of
    references into [fs] and the snapshot [doc]: the elements and the
    snapshot it leaves. *)
Definition resize (N : Numbers) (width0 height0 : js_number N) (pool : list nat)
    (doc : js_number N * js_number N) (fs : list Element)
  : list Element * (js_number N * js_number N) :=
  (foldl (fun fs flake => alter (resize_flake N width0 height0 doc.1 doc.2) flake fs) fs pool,
   (width0, height0)).

End Any.

(** [num] with its operations. *)
Definition integers : Numbers :=
  {| js_number := num; js_String := ToString; js_Number := Number;
     js_add := nadd; js_sub := nsub |}.

(** ** Predicates and sample pages used in the statements *)

(** Whether the character [c] occurs in [s]. *)
Fixpoint mentions (c : ascii) (s : string) : bool :=
  match s with
  | EmptyString => false
  | String a t => Ascii.eqb a c || mentions c t
  end.

(** The body of the loop in [resize], for the shift [(dx, dy)]. *)
Definition shift (dx dy : num) (e : Env) (flake : nat) : Env :=
  let e := set_left flake (nadd (get_left flake e) dx) e in
  set_top flake (nadd (get_top flake e) dy) e.

(** The pool holds each flake once, and every flake in it is attached. *)
Definition pool_ok (l : list nat) (e : Env) : Prop :=
  NoDup l /\ forall g, g ∈ l -> is_attached g e = true.

(** The test of [animate] on the style values of a flake. *)
Definition box_out (doc : Document) (f : nat) (e : Env) : bool :=
  ngt (get_left f e) (nadd (width doc) (Int css_width))
  || ngt (get_top f e) (nadd (height doc) (Int css_height)).

(** The first statement of the loop body: [rainflake.top = rainflake.top + FALL_RATE]. *)
Definition fall (flake : nat) (this : Controller) (e : Env) : Env :=
  set_top flake (nadd (get_top flake e) (Int (FALL_RATE (config this)))) e.

(** The spec's reading of the test in [animate]: the right edge against
    [viewport.width + box width], the bottom edge against
    [viewport.height + box height]. *)
Definition out_of_bounds_by_far_edges (doc : Document) (b : DOMRect.t) : bool :=
  ngt (nadd (DOMRect.x b) (DOMRect.width b)) (nadd (width doc) (DOMRect.width b))
  || ngt (nadd (DOMRect.y b) (DOMRect.height b)) (nadd (height doc) (DOMRect.height b)).

(** A [Math.random] that always returns one half. *)
Definition midway (n : nat) (w : num) : num :=
  match w with
  | Int z => Int (z / 2)
  | NaN => NaN
  end.

(** One layer of one flake falling 50 a tick, as the first layer of
    [aSocketrain.CONFIG] does, in a viewport of 200 by 145, after the
    flake has appeared and three ticks have passed. *)
Definition three_ticks : World :=
  elapse [Delay 0; Tick 0; Tick 0; Tick 0]
         (main [ {| LIMIT := 1; BLUR := 0; FALL_RATE := 50; SWAY_RATE := 0 |} ]
               {| width := Int 200; height := Int 145 |} midway).

(** The layer [{limit: 1, blur: 0, fallRate: 100, swayRate: 0}]. *)
Definition scenario_layer : CONFIG :=
  {| LIMIT := 1; BLUR := 0; FALL_RATE := 100; SWAY_RATE := 0 |}.

(** The page with that one layer in a viewport of 100 by 100, once the
    delay of [generate] has passed and the flake has been spawned at
    [top = 0]. *)
Definition scenario : World :=
  elapse [Delay 0]
         (main [scenario_layer] {| width := Int 100; height := Int 100 |} midway).

(** The suspended calls of [generate] on controller [k]. *)
Definition pending (k : nat) (ts : list (nat * Z)) : list (nat * Z) :=
  filter (fun t => t.1 = k) ts.

(** Controller [k] is active, its pool is within the limit, and the one
    call of [generate] that is filling it waits with [i] at the pool's
    length, unless the pool is full and the call has returned. *)
Definition filling (cfg : CONFIG) (k : nat) (w : World) : Prop :=
  exists this, controllers w !! k = Some this
    /\ config this = cfg /\ active this = true
    /\ Z.of_nat (length (rainflakes this)) <= LIMIT cfg
    /\ pending k (timeouts (env w))
       = if Z.of_nat (length (rainflakes this)) <? LIMIT cfg
         then [(k, Z.of_nat (length (rainflakes this)))] else [].

(** Every suspended [generate] belongs to a controller of the page. *)
Definition timeouts_bounded (w : World) : Prop :=
  forall k i, (k, i) ∈ timeouts (env w) -> (k < length (controllers w))%nat.

(** [generate] has just been launched on controller [k], of configuration
    [cfg], from a pool within the limit and with no earlier call waiting:
    by the constructor, under [main], or by [start()] on a stopped
    controller. *)
Inductive launched : CONFIG -> nat -> World -> Prop :=
  | launched_by_main layers doc rnd k layer :
      layers !! k = Some layer ->
      0 <= LIMIT layer ->
      launched layer k (main layers doc rnd)
  | launched_by_start w k this :
      controllers w !! k = Some this ->
      active this = false ->
      pending k (timeouts (env w)) = [] ->
      Z.of_nat (length (rainflakes this)) <= LIMIT (config this) ->
      launched (config this) k (invoke start k w).

(** What a call of [command] leaves behind, thrown or not. *)
Definition after (c : completion) : World :=
  match c with
  | Normal w => w
  | TypeError w => w
  end.

(** On the page of the scenario, with the pool at its limit of one:
    [command("spawn")], then [command("stop")] and [command("start")], so
    that [generate] starts from a pool of two, and a tick. *)
Definition overfull : World :=
  elapse [Tick 0]
    (after (command "start" (after (command "stop" (after (command "spawn" scenario)))))).

(** A layer of two flakes that is stopped and started again while its
    first [generate] still waits, and then left to its delays. *)
Definition restarted : World :=
  elapse [Delay 0; Delay 0; Delay 0; Delay 0]
    (after (command "start" (after (command "stop"
       (main [ {| LIMIT := 2; BLUR := 0; FALL_RATE := 50; SWAY_RATE := 0 |} ]
             {| width := Int 200; height := Int 145 |} midway))))).

(** The timers and pools of a page in good order: a registered interval is
    the one its active controller remembers, every pool is in good order,
    and no two controllers share a flake. *)
Definition world_ok (w : World) : Prop :=
  (forall h k, (h, k) ∈ intervals (env w) ->
     exists this, controllers w !! k = Some this
                  /\ active this = true /\ interval this = Some h)
  /\ (forall k this, controllers w !! k = Some this -> pool_ok (rainflakes this) (env w))
  /\ (forall k k' this this' f, k <> k' ->
        controllers w !! k = Some this -> controllers w !! k' = Some this' ->
        f ∈ rainflakes this -> f ∉ rainflakes this').

(** Controller [k] is stopped as [this], no interval is registered for it,
    its flakes are as they were in [e0], and no other controller holds
    them. *)
Definition halted (k : nat) (this : Controller) (e0 : Env) (w : World) : Prop :=
  controllers w !! k = Some this
  /\ active this = false
  /\ (forall h, (h, k) ∉ intervals (env w))
  /\ (forall f, f ∈ rainflakes this ->
        (f < length (flakes (env w)))%nat /\ flakes (env w) !! f = flakes e0 !! f)
  /\ (forall k' this', k' <> k -> controllers w !! k' = Some this' ->
        forall f, f ∈ rainflakes this -> f ∉ rainflakes this').

(** What a method may do to its pool and to the elements: pooled flakes
    come from the old pool or are new, old elements outside the pool are
    left alone, and a pool in good order stays so. *)
Definition tidy (op : Controller -> Env -> Controller * Env) : Prop :=
  forall this e,
    (forall f, f ∈ rainflakes (op this e).1 ->
       f ∈ rainflakes this \/ (length (flakes e) <= f)%nat)
    /\ (length (flakes e) <= length (flakes (op this e).2))%nat
    /\ (forall f, (f < length (flakes e))%nat -> f ∉ rainflakes this ->
          flakes (op this e).2 !! f = flakes e !! f)
    /\ (pool_ok (rainflakes this) e -> pool_ok (rainflakes (op this e).1) (op this e).2).

(** A method that leaves the interval and its bookkeeping alone. *)
Definition quiet (op : Controller -> Env -> Controller * Env) : Prop :=
  forall this e,
    intervals (op this e).2 = intervals e
    /\ active (op this e).1 = active this
    /\ interval (op this e).1 = interval this.

(** The pages the script can reach: [main] builds the first one; from then
    on timers come due, the window is resized and commands are issued, to
    completion or up to the error they throw. *)
Inductive reachable : World -> Prop :=
  | reach_main layers doc rnd : reachable (main layers doc rnd)
  | reach_timer t w : reachable w -> reachable (fire t w)
  | reach_resize clientWidth clientHeight w :
      reachable w -> reachable (on_resize clientWidth clientHeight w)
  | reach_command cmd w : reachable w -> reachable (after (command cmd w)).

(** The controller of the scenario as it is on that page. *)
Definition scenario_controller : Controller :=
  {| config := scenario_layer; rainflakes := [0%nat];
     document := {| width := Int 100; height := Int 100 |};
     active := true; interval := Some 2%nat |}.

(** The same controller after [stop()]. *)
Definition scenario_stopped : Controller :=
  {| config := scenario_layer; rainflakes := [0%nat];
     document := {| width := Int 100; height := Int 100 |};
     active := false; interval := None |}.

(** Controller [k] is as its constructor leaves it: configured with
    [layer], with the viewport [doc], an empty pool, running, and with its
    interval registered. *)
Definition started (layer : CONFIG) (doc : Document) (k : nat) (w : World) : Prop :=
  exists this h, controllers w !! k = Some this
    /\ config this = layer /\ document this = doc /\ rainflakes this = []
    /\ active this = true /\ interval this = Some h
    /\ (h, k) ∈ intervals (env w).

(** Nothing ticks and no controller is running. *)
Definition frozen (w : World) : Prop :=
  intervals (env w) = []
  /\ forall k this, controllers w !! k = Some this -> active this = false.

(** The page [restarted] after three ticks: four flakes at [top = 150],
    one tick from the margin of 175. *)
Definition restarted_late : World := elapse [Tick 0; Tick 0; Tick 0] restarted.

(** Its controller. *)
Definition restarted_controller : Controller :=
  {| config := {| LIMIT := 2; BLUR := 0; FALL_RATE := 50; SWAY_RATE := 0 |};
     rainflakes := [0%nat; 1%nat; 2%nat; 3%nat];
     document := {| width := Int 200; height := Int 145 |};
     active := true; interval := Some 4%nat |}.

(** Every element of [e] is still there in [e'], with the [left] and the
    blur it had, and attached only if it was. *)
Definition settled (e e' : Env) : Prop :=
  forall f el, flakes e !! f = Some el ->
    exists el', flakes e' !! f = Some el'
      /\ style_left el' = style_left el /\ style_filter el' = style_filter el
      /\ (attached el = false -> attached el' = false).

(** The interval registrations of a page are in good order: the handles
    are distinct and were all drawn from the counter, a registration is the
    one its controller remembers, and a controller remembers an interval
    exactly while it is running and the interval is registered. *)
Definition timers_ok (w : World) : Prop :=
  NoDup (intervals (env w)).*1
  /\ (forall h k, (h, k) ∈ intervals (env w) -> (h < next_timer (env w))%nat)
  /\ (forall h k, (h, k) ∈ intervals (env w) ->
        exists this, controllers w !! k = Some this /\ interval this = Some h)
  /\ (forall k this, controllers w !! k = Some this ->
        match interval this with
        | Some h => active this = true /\ (h, k) ∈ intervals (env w)
        | None => active this = false
        end).

(** A method that leaves the counter of timer handles where it is or
    moves it on. *)
Definition calm (op : Controller -> Env -> Controller * Env) : Prop :=
  forall this e, (next_timer e <= next_timer (op this e).2)%nat.

(** [String] and [Number] carry [v] through the pixel string: [String(v)]
    holds no ["px"] and [Number] reads it back as [v].  The language gives
    this for every double: a finite one is written with digits, a sign, a
    point and an exponent, so as to be read back as itself, and [NaN] and
    the infinities are written and read by name; [-0] is written ["0"] and
    read as [0], which [===] takes for the same number. *)
Definition round_trips (N : Numbers) (v : js_number N) : Prop :=
  mentions "p" (js_String N v) = false /\ js_Number N (js_String N v) = v.

(** * Properties *)

(** ** The pixel-string encoding *)

Lemma replace_px_suffix (s : string) :
  mentions "p" s = false -> replace "px" "" (String.append s "px") = s.
Proof.
  induction s as [|c t IH]; [reflexivity|].
  cbn [mentions]. intros [Hc Ht]%orb_false_iff.
  change (String.append (String c t) "px") with (String c (String.append t "px")).
  cbn [replace String.prefix].
  destruct (ascii_dec "p" c) as [<-|_]; [discriminate Hc|].
  now rewrite (IH Ht).
Qed.

Lemma string_of_uint_no_p (d : Decimal.uint) :
  mentions "p" (NilEmpty.string_of_uint d) = false.
Proof. induction d; cbn; auto. Qed.

Lemma NilZero_string_of_uint_pos (p : positive) :
  NilZero.string_of_uint (Pos.to_uint p) = NilEmpty.string_of_uint (Pos.to_uint p).
Proof.
  pose proof (DecimalPos.Unsigned.to_uint_nonnil p).
  destruct (Pos.to_uint p); [contradiction| reflexivity ..].
Qed.

Lemma ToString_no_p (v : num) : mentions "p" (ToString v) = false.
Proof.
  destruct v as [[|p|p]|]; try reflexivity;
    cbn [ToString Z.to_int NilZero.string_of_int mentions];
    rewrite NilZero_string_of_uint_pos; apply string_of_uint_no_p.
Qed.

Lemma digits_string_of_uint (p : positive) :
  digits (NilEmpty.string_of_uint (Pos.to_uint p)) = Some (Z.pos p).
Proof.
  unfold digits.
  assert (Some (Z.of_uint (Pos.to_uint p)) = Some (Z.pos p)) as <-.
  { unfold Z.of_uint. now rewrite DecimalPos.Unsigned.of_to. }
  rewrite NilEmpty.usu.
  pose proof (DecimalPos.Unsigned.to_uint_nonnil p) as Hnil.
  destruct (Pos.to_uint p); [contradiction| reflexivity ..].
Qed.

Lemma string_of_uint_head (d : Decimal.uint) :
  d <> Decimal.Nil ->
  exists c t, NilEmpty.string_of_uint d = String c t
              /\ Ascii.eqb c "-" = false /\ Ascii.eqb c "+" = false.
Proof. destruct d; [contradiction| intros _; cbn; eauto ..]. Qed.

Lemma Number_ToString (v : num) : Number (ToString v) = v.
Proof.
  destruct v as [[|p|p]|]; try reflexivity.
  - cbn [ToString Z.to_int NilZero.string_of_int].
    rewrite NilZero_string_of_uint_pos.
    pose proof (digits_string_of_uint p) as Hd.
    destruct (string_of_uint_head (Pos.to_uint p)) as (c & t & Hs & Hm & Hp);
      [apply DecimalPos.Unsigned.to_uint_nonnil|].
    rewrite Hs in *. cbn [Number]. now rewrite Hm, Hp, Hd.
  - cbn [ToString Z.to_int NilZero.string_of_int].
    rewrite NilZero_string_of_uint_pos.
    cbn [Number]. rewrite Ascii.eqb_refl.
    now rewrite digits_string_of_uint.
Qed.

Lemma unpx_px (v : num) : unpx (px v) = v.
Proof.
  unfold unpx, px.
  rewrite replace_px_suffix by apply ToString_no_p.
  apply Number_ToString.
Qed.

(** Membership in explicit lists. *)
Ltac list_mem :=
  rewrite ?elem_of_app, ?elem_of_cons, ?elem_of_nil in *; intuition congruence.

(** ** Reading and writing flakes *)

Lemma get_top_set_top (f g : nat) (v : num) (e : Env) :
  get_top f (set_top g v e)
  = if decide (g = f) then (if decide (f < length (flakes e))%nat then v else NaN)
    else get_top f e.
Proof.
  unfold get_top, set_top; cbn. case_decide as Hfg.
  - subst g. rewrite list_lookup_alter_eq. case_decide as Hlt.
    + apply lookup_lt_is_Some_2 in Hlt as [el ->]. cbn. apply unpx_px.
    + apply Nat.nlt_ge, lookup_ge_None in Hlt. now rewrite Hlt.
  - now rewrite list_lookup_alter_ne.
Qed.

Lemma get_left_set_left (f g : nat) (v : num) (e : Env) :
  get_left f (set_left g v e)
  = if decide (g = f) then (if decide (f < length (flakes e))%nat then v else NaN)
    else get_left f e.
Proof.
  unfold get_left, set_left; cbn. case_decide as Hfg.
  - subst g. rewrite list_lookup_alter_eq. case_decide as Hlt.
    + apply lookup_lt_is_Some_2 in Hlt as [el ->]. cbn. apply unpx_px.
    + apply Nat.nlt_ge, lookup_ge_None in Hlt. now rewrite Hlt.
  - now rewrite list_lookup_alter_ne.
Qed.

Lemma get_left_set_top (f g : nat) (v : num) (e : Env) :
  get_left f (set_top g v e) = get_left f e.
Proof.
  unfold get_left, set_top; cbn. rewrite list_lookup_alter.
  case_decide; [|reflexivity]. subst. now destruct (flakes e !! f).
Qed.

Lemma get_top_set_left (f g : nat) (v : num) (e : Env) :
  get_top f (set_left g v e) = get_top f e.
Proof.
  unfold get_top, set_left; cbn. rewrite list_lookup_alter.
  case_decide; [|reflexivity]. subst. now destruct (flakes e !! f).
Qed.

Lemma is_attached_element_remove (f g : nat) (e : Env) :
  is_attached f (element_remove g e) = if decide (g = f) then false else is_attached f e.
Proof.
  unfold is_attached, element_remove; cbn. rewrite list_lookup_alter.
  case_decide; [|reflexivity]. subst. now destruct (flakes e !! f).
Qed.

Lemma get_top_element_remove (f g : nat) (e : Env) :
  get_top f (element_remove g e) = get_top f e.
Proof.
  unfold get_top, element_remove; cbn. rewrite list_lookup_alter.
  case_decide; [|reflexivity]. subst. now destruct (flakes e !! f).
Qed.

Lemma get_left_element_remove (f g : nat) (e : Env) :
  get_left f (element_remove g e) = get_left f e.
Proof.
  unfold get_left, element_remove; cbn. rewrite list_lookup_alter.
  case_decide; [|reflexivity]. subst. now destruct (flakes e !! f).
Qed.

Lemma integers_round_trip (v : num) : round_trips integers v.
Proof. split; [apply ToString_no_p | apply Number_ToString]. Qed.

(** The accessors on [num] are those of [Any] on [integers], through the
    reference of the flake. *)
Lemma accessors_on_integers (f : nat) (v : num) (e : Env) :
  get_top f e = from_option (Any.get_top integers) NaN (flakes e !! f)
  /\ get_left f e = from_option (Any.get_left integers) NaN (flakes e !! f)
  /\ flakes (set_top f v e) = alter (Any.set_top integers v) f (flakes e)
  /\ flakes (set_left f v e) = alter (Any.set_left integers v) f (flakes e).
Proof.
  unfold get_top, get_left. split_and!; try reflexivity; by destruct (flakes e !! f).
Qed.

(** C10: on every flake and for every number [v] that [String] and
    [Number] carry through the pixel string, as they do every finite
    double, writing [v] to [top] (to [left]) and reading the same accessor
    gives [v] back: [replace('px', '')] takes off the suffix that the
    setter put on, and nothing else. *)
Theorem accessors_round_trip (N : Numbers) (v : js_number N) (el : Element) :
  round_trips N v ->
  Any.get_top N (Any.set_top N v el) = v
  /\ Any.get_left N (Any.set_left N v el) = v.
Proof.
  intros [Hp Hv]. unfold Any.get_top, Any.get_left, Any.set_top, Any.set_left.
  cbn [style_top style_left]. unfold Any.unpx, Any.px.
  rewrite (replace_px_suffix _ Hp). by split.
Qed.

(** ** [clear] *)

Lemma is_attached_detach_all (f : nat) (l : list nat) (e : Env) :
  is_attached f (foldl (fun e flake => element_remove flake e) e l)
  = if decide (f ∈ l) then false else is_attached f e.
Proof.
  revert e. induction l as [|g l IH]; intros e; cbn [foldl].
  - rewrite decide_False; [done | apply not_elem_of_nil].
  - rewrite IH, is_attached_element_remove.
    destruct (decide (f ∈ l)) as [Hl|Hl], (decide (g = f)) as [->|Hg];
      (rewrite decide_True by list_mem) || (rewrite decide_False by list_mem);
      reflexivity.
Qed.

(** C7: whatever the pool holds, also nothing, [clear] leaves it empty and
    every flake that was in it detached from the container; all elements
    are detached before the array is replaced. *)
Theorem clear_empties_and_detaches (this : Controller) (e : Env) :
  rainflakes (clear this e).1 = []
  /\ (forall flake, flake ∈ rainflakes this -> is_attached flake (clear this e).2 = false)
  /\ (clear this e).2 = foldl (fun e flake => element_remove flake e) e (rainflakes this).
Proof.
  split_and!; [reflexivity | | reflexivity].
  intros flake Hin. cbn. rewrite is_attached_detach_all. now rewrite decide_True.
Qed.

(** ** [remove] *)

Lemma indexOf_bounds (v : nat) (l : list nat) :
  indexOf v l = -1 \/ 0 <= indexOf v l < Z.of_nat (length l).
Proof.
  induction l as [|a l IH]; cbn [indexOf length]; [now left|].
  destruct (Nat.eqb a v); [right; lia|].
  destruct (Z.ltb_spec (indexOf v l) 0); lia.
Qed.

Lemma indexOf_absent (v : nat) (l : list nat) : v ∉ l -> indexOf v l = -1.
Proof.
  induction l as [|a l IH]; [reflexivity|].
  intros Hnin. apply not_elem_of_cons in Hnin as [Hne Hnin].
  cbn [indexOf]. destruct (Nat.eqb_spec a v); [congruence|].
  now rewrite (IH Hnin).
Qed.

Lemma splice_last (l : list nat) (q : nat) : splice (-1) 1 (l ++ [q]) = l.
Proof.
  unfold splice. rewrite length_app. cbn [length].
  change (-1 <? 0) with true. cbv iota.
  replace (Z.to_nat (Z.max (Z.of_nat (length l + 1) + -1) 0)) with (length l) by lia.
  rewrite take_app_length.
  rewrite drop_ge; [apply app_nil_r|]. rewrite length_app; cbn [length]. lia.
Qed.

(** C9: for a flake [p] that is not in the pool, [remove(p)] detaches [p]
    and drops the last flake of a non-empty pool, which stays attached as it
    was; on an empty pool nothing is dropped. *)
Theorem remove_absent_flake (p : nat) (this : Controller) (e : Env) :
  p ∉ rainflakes this ->
  is_attached p (remove p this e).2 = false
  /\ (forall l q, rainflakes this = l ++ [q] ->
        rainflakes (remove p this e).1 = l
        /\ is_attached q (remove p this e).2 = is_attached q e)
  /\ (rainflakes this = [] -> rainflakes (remove p this e).1 = []).
Proof.
  intros Hp. cbn. rewrite (indexOf_absent _ _ Hp). split_and!.
  - rewrite is_attached_element_remove. now rewrite decide_True.
  - intros l q Hl. rewrite Hl, splice_last. split; [reflexivity|].
    rewrite is_attached_element_remove, decide_False; [done|].
    intros ->. apply Hp. rewrite Hl. list_mem.
  - now intros ->.
Qed.

(** ** [resize] *)

Lemma shift_left (dx dy : num) (e : Env) (f g : nat) :
  get_left f (shift dx dy e g)
  = if decide (g = f) then nadd (get_left f e) dx else get_left f e.
Proof.
  unfold shift. rewrite get_left_set_top, get_left_set_left.
  case_decide; [|reflexivity]. subst g. case_decide as Hlt; [reflexivity|].
  unfold get_left. apply Nat.nlt_ge, lookup_ge_None in Hlt. now rewrite Hlt.
Qed.

Lemma shift_top (dx dy : num) (e : Env) (f g : nat) :
  get_top f (shift dx dy e g)
  = if decide (g = f) then nadd (get_top f e) dy else get_top f e.
Proof.
  unfold shift. rewrite get_top_set_top.
  case_decide as Hfg; [|apply get_top_set_left]. subst g.
  rewrite get_top_set_left. unfold set_left; cbn. rewrite length_alter.
  case_decide as Hlt; [reflexivity|].
  unfold get_top. apply Nat.nlt_ge, lookup_ge_None in Hlt. now rewrite Hlt.
Qed.

Lemma shift_all (dx dy : num) (l : list nat) (e : Env) (f : nat) :
  NoDup l ->
  get_left f (foldl (shift dx dy) e l)
  = (if decide (f ∈ l) then nadd (get_left f e) dx else get_left f e)
  /\ get_top f (foldl (shift dx dy) e l)
     = (if decide (f ∈ l) then nadd (get_top f e) dy else get_top f e).
Proof.
  intros Hnd. revert e. induction Hnd as [|g l Hg Hnd IH]; intros e; cbn [foldl].
  - rewrite !decide_False by apply not_elem_of_nil. done.
  - destruct (IH (shift dx dy e g)) as [-> ->].
    rewrite shift_left, shift_top.
    destruct (decide (g = f)) as [->|Hne].
    + rewrite !(decide_False (P := f ∈ l)) by done.
      rewrite !decide_True by list_mem. done.
    + destruct (decide (f ∈ l)).
      * rewrite !decide_True by list_mem. done.
      * rewrite !decide_False by list_mem. done.
Qed.

Lemma resize_flake_reads (N : Numbers) (width0 height0 w1 h1 : js_number N) (el : Element) :
  round_trips N (js_add N (Any.get_left N el) (js_sub N width0 w1)) ->
  round_trips N (js_add N (Any.get_top N el) (js_sub N height0 h1)) ->
  Any.get_left N (Any.resize_flake N width0 height0 w1 h1 el)
  = js_add N (Any.get_left N el) (js_sub N width0 w1)
  /\ Any.get_top N (Any.resize_flake N width0 height0 w1 h1 el)
     = js_add N (Any.get_top N el) (js_sub N height0 h1).
Proof.
  set (x' := js_add N (Any.get_left N el) (js_sub N width0 w1)).
  set (y' := js_add N (Any.get_top N el) (js_sub N height0 h1)).
  intros [Hpx Hx] [Hpy Hy].
  assert (Any.resize_flake N width0 height0 w1 h1 el
          = Any.set_top N y' (Any.set_left N x' el)) as -> by reflexivity.
  unfold Any.get_left, Any.get_top, Any.set_left, Any.set_top.
  cbn [style_left style_top]. unfold Any.unpx, Any.px.
  rewrite (replace_px_suffix _ Hpx), (replace_px_suffix _ Hpy). by split.
Qed.

Lemma resize_each (N : Numbers) (width0 height0 w1 h1 : js_number N)
    (pool : list nat) (fs : list Element) (f : nat) :
  NoDup pool ->
  foldl (fun fs flake => alter (Any.resize_flake N width0 height0 w1 h1) flake fs) fs pool !! f
  = if decide (f ∈ pool) then Any.resize_flake N width0 height0 w1 h1 <$> fs !! f
    else fs !! f.
Proof.
  intros Hnd. revert fs. induction Hnd as [|g l Hg Hnd IH]; intros fs; cbn [foldl].
  - by rewrite decide_False by apply not_elem_of_nil.
  - rewrite IH. destruct (decide (g = f)) as [-> | Hne].
    + rewrite (decide_False (P := f ∈ l)) by done.
      rewrite decide_True by list_mem. apply list_lookup_alter_eq.
    + rewrite list_lookup_alter_ne by done.
      destruct (decide (f ∈ l));
        (rewrite decide_True by list_mem) || (rewrite decide_False by list_mem); done.
Qed.

(** [resize] on [num] is that of [Any] on [integers]. *)
Lemma resize_on_integers (width0 height0 : num) (this : Controller) (e : Env) :
  flakes (resize width0 height0 this e).2
  = (Any.resize integers width0 height0 (rainflakes this)
       (width (document this), height (document this)) (flakes e)).1
  /\ (let d := document (resize width0 height0 this e).1 in (width d, height d))
     = (Any.resize integers width0 height0 (rainflakes this)
          (width (document this), height (document this)) (flakes e)).2.
Proof.
  split; [|reflexivity]. unfold resize, Any.resize. cbn [fst snd].
  generalize (rainflakes this). intros l. revert e.
  induction l as [|g l IH]; intros e; [reflexivity|].
  cbn [foldl]. rewrite IH. f_equal. cbn [flakes set_top set_left set_flakes].
  rewrite list_alter_alter_eq. apply list_alter_ext; [|done].
  intros el Hel. cbn. rewrite get_top_set_left. unfold get_left, get_top.
  rewrite Hel. reflexivity.
Qed.

(** C4: [resize(w2, h2)] moves every flake of the pool, at [(x, y)] under
    the old snapshot [(w1, h1)], to exactly [(x + (w2 - w1), y + (h2 - h1))]
    in the arithmetic of the language, a translation, and leaves [(w2, h2)]
    as the snapshot; the element stays attached if it was.  This holds for
    every position and size that [String] and [Number] carry through the
    pixel string, as they do every double. *)
Theorem resize_translates (N : Numbers) (w2 h2 w1 h1 : js_number N)
    (pool : list nat) (fs : list Element) (f : nat) (el : Element) :
  NoDup pool ->
  f ∈ pool ->
  fs !! f = Some el ->
  round_trips N (js_add N (Any.get_left N el) (js_sub N w2 w1)) ->
  round_trips N (js_add N (Any.get_top N el) (js_sub N h2 h1)) ->
  exists el', (Any.resize N w2 h2 pool (w1, h1) fs).1 !! f = Some el'
    /\ Any.get_left N el' = js_add N (Any.get_left N el) (js_sub N w2 w1)
    /\ Any.get_top N el' = js_add N (Any.get_top N el) (js_sub N h2 h1)
    /\ attached el' = attached el
    /\ (Any.resize N w2 h2 pool (w1, h1) fs).2 = (w2, h2).
Proof.
  intros Hnd Hin Hel Hx Hy. exists (Any.resize_flake N w2 h2 w1 h1 el).
  destruct (resize_flake_reads N w2 h2 w1 h1 el Hx Hy) as [Hl Ht].
  split_and!; [|done..]. unfold Any.resize. cbn [fst snd].
  rewrite (resize_each N w2 h2 w1 h1 pool fs f Hnd), decide_True by done.
  by rewrite Hel.
Qed.

(** ** [start] *)

(** C6: a second [start()] right after the first changes nothing; and the
    two calls on a stopped controller leave exactly one interval
    registration and one suspended [generate] behind (none if the pool is
    already at the limit, when [generate] has nothing to wait for). *)
Theorem start_twice (self : nat) (this : Controller) (e : Env) :
  let once := start self this e in
  let twice := start self once.1 once.2 in
  twice = once
  /\ active twice.1 = true
  /\ (active this = false ->
      (exists h, interval twice.1 = Some h
                 /\ intervals twice.2 = intervals e ++ [(h, self)])
      /\ timeouts twice.2
         = timeouts e ++ (if Z.of_nat (length (rainflakes this)) <? LIMIT (config this)
                          then [(self, Z.of_nat (length (rainflakes this)))] else [])).
Proof.
  unfold start. destruct (active this) eqn:Hact.
  - cbn. rewrite Hact. split_and!; [done | done | discriminate].
  - cbn. unfold generate, generate_loop. cbn.
    destruct (_ <? _); cbn; split_and!; eauto using app_nil_r.
Qed.

(** ** [animate] *)

Lemma is_attached_valid (f : nat) (e : Env) :
  is_attached f e = true -> (f < length (flakes e))%nat.
Proof.
  unfold is_attached. destruct (flakes e !! f) eqn:E; [|done].
  intros _. now apply lookup_lt_Some in E.
Qed.

Lemma is_attached_set_top (f g : nat) (v : num) (e : Env) :
  is_attached f (set_top g v e) = is_attached f e.
Proof.
  unfold is_attached, set_top; cbn. rewrite list_lookup_alter.
  case_decide; [|reflexivity]. subst. now destruct (flakes e !! f).
Qed.

Lemma is_attached_set_left (f g : nat) (v : num) (e : Env) :
  is_attached f (set_left g v e) = is_attached f e.
Proof.
  unfold is_attached, set_left; cbn. rewrite list_lookup_alter.
  case_decide; [|reflexivity]. subst. now destruct (flakes e !! f).
Qed.

Lemma bounds_attached (doc : Document) (f : nat) (e : Env) :
  is_attached f e = true -> out_of_bounds doc (bounds f e) = box_out doc f e.
Proof.
  unfold is_attached, bounds, box_out, get_left, get_top, getBoundingClientRect.
  destruct (flakes e !! f) as [el|]; [|done]. now intros ->.
Qed.

Lemma spawn_pool (this : Controller) (e : Env) :
  rainflakes (spawn this e).1 = rainflakes this ++ [length (flakes e)].
Proof. reflexivity. Qed.

Lemma spawn_old (this : Controller) (e : Env) (f : nat) :
  (f < length (flakes e))%nat -> flakes (spawn this e).2 !! f = flakes e !! f.
Proof. intros Hf. cbn. now apply lookup_app_l. Qed.

Lemma spawn_new (this : Controller) (e : Env) :
  is_attached (length (flakes e)) (spawn this e).2 = true
  /\ get_top (length (flakes e)) (spawn this e).2 = Int 0.
Proof.
  unfold is_attached, get_top. cbn.
  rewrite list_lookup_middle by done. cbn. split; [done|]. apply (unpx_px (Int 0)).
Qed.

Lemma animate_flake_cases (flake : nat) (this : Controller) (e : Env) :
  (out_of_bounds (document this) (bounds flake (fall flake this e)) = false
   /\ animate_flake flake this e = (this, fall flake this e))
  \/ (out_of_bounds (document this) (bounds flake (fall flake this e)) = true
      /\ animate_flake flake this e
         = spawn (remove flake this (fall flake this e)).1
                 (remove flake this (fall flake this e)).2).
Proof.
  unfold animate_flake, fall.
  destruct (out_of_bounds _ _); [right | left]; done.
Qed.

Lemma length_splice_indexOf (v : nat) (l : list nat) :
  l <> [] -> length (splice (indexOf v l) 1 l) = (length l - 1)%nat.
Proof.
  intros Hl. assert (0 < length l)%nat by (destruct l; cbn; [done | lia]).
  unfold splice. rewrite length_app, length_take, length_drop.
  destruct (indexOf_bounds v l) as [-> | Hr];
    [change (-1 <? 0) with true | destruct (Z.ltb_spec (indexOf v l) 0)];
    cbv iota; lia.
Qed.

Lemma elem_of_splice (start count : Z) (l : list nat) (g : nat) :
  g ∈ splice start count l -> g ∈ l.
Proof.
  unfold splice. intros [H | H]%elem_of_app.
  - eapply subseteq_take, H.
  - eapply subseteq_drop, H.
Qed.

Lemma splice_sublist (start count : Z) (l : list nat) :
  splice start count l `sublist_of` l.
Proof.
  unfold splice. destruct (Z.ltb_spec start 0).
  all: set (a := Z.to_nat _); set (b := Z.to_nat _).
  all: assert (a <= b)%nat as Hab by (subst a b; lia).
  all: rewrite <- (take_drop a l) at 3.
  all: apply sublist_app; [done|].
  all: replace b with (a + (b - a))%nat by lia.
  all: rewrite <- drop_drop; apply sublist_drop.
Qed.

Lemma indexOf_split (v : nat) (l : list nat) :
  v ∈ l ->
  exists l1 l2, l = l1 ++ v :: l2 /\ (v ∉ l1) /\ indexOf v l = Z.of_nat (length l1).
Proof.
  induction l as [|a l IH]; intros Hin; [list_mem|].
  cbn [indexOf]. destruct (Nat.eqb_spec a v) as [->|Hne].
  - exists [], l. split_and!; [done | apply not_elem_of_nil | done].
  - destruct IH as (l1 & l2 & -> & Hn & Hi); [list_mem|].
    exists (a :: l1), l2. rewrite Hi. split_and!; [done | list_mem |].
    destruct (Z.ltb_spec (Z.of_nat (length l1)) 0); cbn [length]; lia.
Qed.

Lemma splice_at (l1 l2 : list nat) (v : nat) :
  splice (Z.of_nat (length l1)) 1 (l1 ++ v :: l2) = l1 ++ l2.
Proof.
  unfold splice. rewrite length_app. cbn [length].
  destruct (Z.ltb_spec (Z.of_nat (length l1)) 0); [lia|].
  replace (Z.to_nat (Z.min _ _)) with (length l1) by lia.
  rewrite take_app_length. f_equal.
  match goal with |- drop ?n _ = _ => replace n with (length l1 + 1)%nat by lia end.
  rewrite drop_app_ge by lia.
  now replace (length l1 + 1 - length l1)%nat with 1%nat by lia.
Qed.

Lemma animate_flake_length (flake : nat) (this : Controller) (e : Env) :
  rainflakes this <> [] ->
  length (rainflakes (animate_flake flake this e).1) = length (rainflakes this).
Proof.
  intros Hl. destruct (animate_flake_cases flake this e) as [[_ ->] | [_ ->]]; [done|].
  rewrite spawn_pool, length_app. cbn.
  rewrite length_splice_indexOf by done.
  destruct (rainflakes this); cbn; [done | lia].
Qed.

Lemma animate_flake_fields (flake : nat) (this : Controller) (e : Env) :
  let r := animate_flake flake this e in
  config r.1 = config this /\ document r.1 = document this
  /\ active r.1 = active this /\ interval r.1 = interval this
  /\ intervals r.2 = intervals e /\ timeouts r.2 = timeouts e
  /\ next_timer r.2 = next_timer e.
Proof.
  cbn zeta. destruct (animate_flake_cases flake this e) as [[_ ->] | [_ ->]];
    cbn; split_and!; reflexivity.
Qed.

Lemma animate_flake_frame (flake : nat) (this : Controller) (e : Env) (f : nat) :
  f <> flake -> (f < length (flakes e))%nat ->
  flakes (animate_flake flake this e).2 !! f = flakes e !! f.
Proof.
  intros Hne Hf.
  destruct (animate_flake_cases flake this e) as [[_ ->] | [_ ->]].
  - cbn. now rewrite list_lookup_alter_ne.
  - rewrite spawn_old; cbn; rewrite ?length_alter; [|done].
    now rewrite !list_lookup_alter_ne.
Qed.

Lemma animate_flake_grows (flake : nat) (this : Controller) (e : Env) :
  (length (flakes e) <= length (flakes (animate_flake flake this e).2))%nat.
Proof.
  destruct (animate_flake_cases flake this e) as [[_ ->] | [_ ->]]; cbn;
    rewrite ?length_app, ?length_alter; lia.
Qed.

Lemma animate_flake_members (flake : nat) (this : Controller) (e : Env) (g : nat) :
  g ∈ rainflakes (animate_flake flake this e).1 ->
  g ∈ rainflakes this \/ (length (flakes e) <= g)%nat.
Proof.
  destruct (animate_flake_cases flake this e) as [[_ ->] | [_ ->]]; [now left|].
  rewrite spawn_pool. cbn.
  intros [H | H]%elem_of_app; [left; eapply elem_of_splice, H | right].
  apply list_elem_of_singleton in H. rewrite !length_alter in H. lia.
Qed.

Lemma same_flake (e e' : Env) (f : nat) :
  flakes e' !! f = flakes e !! f ->
  get_left f e' = get_left f e /\ get_top f e' = get_top f e
  /\ is_attached f e' = is_attached f e.
Proof. unfold get_left, get_top, is_attached. now intros ->. Qed.

Lemma box_out_same (doc : Document) (e e' : Env) (f : nat) :
  flakes e' !! f = flakes e !! f -> box_out doc f e' = box_out doc f e.
Proof. intros (Hl & Ht & _)%same_flake. unfold box_out. now rewrite Hl, Ht. Qed.

(** One step of the loop on a pool in good order. *)
Lemma animate_flake_ok (flake : nat) (this : Controller) (e : Env) :
  pool_ok (rainflakes this) e ->
  flake ∈ rainflakes this ->
  let r := animate_flake flake this e in
  pool_ok (rainflakes r.1) r.2
  /\ (forall g, g ∈ rainflakes this -> g <> flake -> g ∈ rainflakes r.1)
  /\ (flake ∉ rainflakes r.1 <-> box_out (document this) flake (fall flake this e) = true)
  /\ (flake ∉ rainflakes r.1 ->
      box_out (document this) flake r.2 = true /\ is_attached flake r.2 = false).
Proof.
  intros [Hnd Hatt] Hin r.
  assert (is_attached flake (fall flake this e) = true) as Hfa.
  { unfold fall. rewrite is_attached_set_top. auto. }
  pose proof (bounds_attached (document this) _ _ Hfa) as Hb.
  subst r. destruct (animate_flake_cases flake this e) as [[Hout ->] | [Hout ->]];
    rewrite Hb in Hout.
  - cbn [fst snd]. split_and!.
    + split; [done|]. intros g Hg. unfold fall. rewrite is_attached_set_top. auto.
    + auto.
    + rewrite Hout. split; [intros Hn; now destruct Hn | done].
    + intros Hn. now destruct Hn.
  - destruct (indexOf_split _ _ Hin) as (l1 & l2 & Hl & Hn1 & Hidx).
    assert (rainflakes (remove flake this (fall flake this e)).1 = l1 ++ l2) as Hrem.
    { cbn. rewrite Hidx, Hl. apply splice_at. }
    rewrite Hl in Hnd. apply NoDup_app in Hnd as (Hnd1 & Hdisj & Hnd2).
    apply NoDup_cons in Hnd2 as [Hn2 Hnd2].
    assert (flake ∉ l1 ++ l2) as Hnot by list_mem.
    assert (forall g, g ∈ l1 ++ l2 -> g ∈ rainflakes this /\ g <> flake) as Hsub.
    { intros g Hg. split; [rewrite Hl; list_mem | intros ->; done]. }
    set (e1 := (remove flake this (fall flake this e)).2).
    assert (length (flakes e1) = length (flakes e)) as Hlen.
    { subst e1. cbn. now rewrite !length_alter. }
    assert (forall g, g <> flake -> flakes e1 !! g = flakes e !! g) as Hfr.
    { intros g Hg. subst e1. cbn. now rewrite !list_lookup_alter_ne. }
    rewrite spawn_pool, Hrem, Hlen. split_and!.
    + split.
      * apply NoDup_app. split_and!; [|intros g Hg Hg'| apply NoDup_singleton].
        -- apply NoDup_app. split_and!; [done | | done].
           intros g Hg Hg'. eapply Hdisj; [done | list_mem].
        -- apply list_elem_of_singleton in Hg'. subst g.
           destruct (Hsub _ Hg) as [Hg1 _]. apply Hatt, is_attached_valid in Hg1. lia.
      * intros g [Hg | Hg]%elem_of_app.
        -- destruct (Hsub _ Hg) as [Hg1 Hg2].
           pose proof (Hatt _ Hg1) as Ha. pose proof (is_attached_valid _ _ Ha).
           destruct (same_flake e1 (spawn (remove flake this (fall flake this e)).1 e1).2 g)
             as (_ & _ & ->); [apply spawn_old; lia|].
           destruct (same_flake e e1 g) as (_ & _ & ->); auto.
        -- apply list_elem_of_singleton in Hg. subst g. rewrite <- Hlen.
           apply spawn_new.
    + intros g Hg Hne. rewrite Hl in Hg. list_mem.
    + rewrite Hout. split; [done|]. intros _ [H | H]%elem_of_app; [done|].
      apply list_elem_of_singleton in H. apply Hatt, is_attached_valid in Hin. lia.
    + intros _. pose proof (is_attached_valid _ _ (Hatt _ Hin)) as Hv.
      assert (flakes (spawn (remove flake this (fall flake this e)).1 e1).2 !! flake
              = flakes e1 !! flake) as Hsame by (apply spawn_old; lia).
      rewrite (box_out_same _ _ _ _ Hsame).
      destruct (same_flake _ _ _ Hsame) as (_ & _ & ->).
      subst e1. cbn [remove snd]. split.
      * unfold box_out. now rewrite get_left_element_remove, get_top_element_remove.
      * rewrite is_attached_element_remove. now rewrite decide_True.
Qed.

(** The loop needs no more fuel than the flakes left to visit: it ends
    because the iterator runs off the end of the array. *)
Lemma animate_from_enough (extra fuel index : nat) (this : Controller) (e : Env) :
  (length (rainflakes this) - index <= fuel)%nat ->
  animate_from (fuel + extra) index this e = animate_from fuel index this e.
Proof.
  revert index this e. induction fuel as [|fuel IH]; intros index this e Hfuel.
  - assert (rainflakes this !! index = None) as Hnone by (apply lookup_ge_None; lia).
    destruct extra; cbn; [done | now rewrite Hnone].
  - cbn. destruct (rainflakes this !! index) as [flake|] eqn:Hlk; [|done].
    destruct (animate_flake flake this e) as [this1 e1] eqn:Hstep.
    apply IH. apply lookup_lt_Some in Hlk.
    assert (length (rainflakes this1) = length (rainflakes this)) as ->; [|lia].
    change this1 with (this1, e1).1. rewrite <- Hstep.
    apply animate_flake_length. intros Hnil. rewrite Hnil in Hlk. cbn in Hlk. lia.
Qed.

Lemma animate_from_length (fuel index : nat) (this : Controller) (e : Env) :
  length (rainflakes (animate_from fuel index this e).1) = length (rainflakes this).
Proof.
  revert index this e. induction fuel as [|fuel IH]; intros index this e; [done|].
  cbn. destruct (rainflakes this !! index) as [flake|] eqn:Hlk; [|done].
  destruct (animate_flake flake this e) as [this1 e1] eqn:Hstep.
  rewrite IH. change this1 with (this1, e1).1. rewrite <- Hstep.
  apply animate_flake_length. intros Hnil. now rewrite Hnil in Hlk.
Qed.

Lemma animate_from_fields (fuel index : nat) (this : Controller) (e : Env) :
  let r := animate_from fuel index this e in
  config r.1 = config this /\ document r.1 = document this
  /\ active r.1 = active this /\ interval r.1 = interval this
  /\ intervals r.2 = intervals e /\ timeouts r.2 = timeouts e
  /\ next_timer r.2 = next_timer e.
Proof.
  revert index this e. induction fuel as [|fuel IH]; intros index this e; [done|].
  cbn. destruct (rainflakes this !! index) as [flake|] eqn:Hlk; [|done].
  pose proof (animate_flake_fields flake this e) as Hf.
  destruct (animate_flake flake this e) as [this1 e1] eqn:Hstep.
  cbn in Hf. destruct Hf as (<- & <- & <- & <- & <- & <- & <-). apply IH.
Qed.

Lemma animate_from_frame (fuel index : nat) (this : Controller) (e : Env) (f : nat) :
  f ∉ rainflakes this -> (f < length (flakes e))%nat ->
  let r := animate_from fuel index this e in
  flakes r.2 !! f = flakes e !! f /\ (f ∉ rainflakes r.1)
  /\ (length (flakes e) <= length (flakes r.2))%nat.
Proof.
  revert index this e. induction fuel as [|fuel IH]; intros index this e Hf Hv; [done|].
  cbn. destruct (rainflakes this !! index) as [flake|] eqn:Hlk; [|done].
  apply list_elem_of_lookup_2 in Hlk.
  assert (f <> flake) as Hne by (intros ->; done).
  pose proof (animate_flake_frame flake this e f Hne Hv) as Hfr.
  pose proof (animate_flake_grows flake this e) as Hgr.
  pose proof (animate_flake_members flake this e f) as Hmem.
  destruct (animate_flake flake this e) as [this1 e1]. cbn [fst snd] in *.
  destruct (IH (S index) this1 e1) as (H1 & H2 & H3); [|lia|].
  - intros [H | H]%Hmem; [done | lia].
  - split_and!; [congruence | done | lia].
Qed.

Lemma animate_from_ok (fuel index : nat) (this : Controller) (e : Env) :
  pool_ok (rainflakes this) e ->
  let r := animate_from fuel index this e in
  pool_ok (rainflakes r.1) r.2
  /\ forall f, f ∈ rainflakes this -> f ∉ rainflakes r.1 ->
       box_out (document this) f r.2 = true /\ is_attached f r.2 = false.
Proof.
  revert index this e. induction fuel as [|fuel IH]; intros index this e Hok.
  { cbn. split; [done|]. intros f Hin Hn. now destruct Hn. }
  cbn. destruct (rainflakes this !! index) as [flake|] eqn:Hlk.
  2:{ cbn. split; [done|]. intros f Hin Hn. now destruct Hn. }
  apply list_elem_of_lookup_2 in Hlk.
  destruct (animate_flake_ok flake this e Hok Hlk) as (Hok1 & Hkeep & _ & Hgone).
  pose proof (animate_flake_fields flake this e) as (_ & Hdoc & _).
  pose proof (animate_flake_grows flake this e) as Hgr.
  destruct (animate_flake flake this e) as [this1 e1]. cbn [fst snd] in *.
  destruct (IH (S index) this1 e1 Hok1) as [Hokr Hrem]. split; [done|].
  intros f Hin Hn. destruct (decide (f ∈ rainflakes this1)) as [Hin1 | Hout1].
  - rewrite <- Hdoc. now apply Hrem.
  - assert (f = flake) as -> by (destruct (decide (f = flake)); [done | now destruct Hout1; apply Hkeep]).
    destruct (Hgone Hout1) as [Hbox Hdet].
    destruct Hok as [_ Hatt]. pose proof (is_attached_valid _ _ (Hatt _ Hlk)) as Hv.
    destruct (animate_from_frame fuel (S index) this1 e1 flake Hout1) as (Hsame & _); [lia|].
    rewrite (box_out_same _ _ _ _ Hsame).
    destruct (same_flake _ _ _ Hsame) as (_ & _ & ->). done.
Qed.

(** C2, as stated, fails: after three ticks the flake's box is at
    [y = 150] with height [30]; its bottom edge [180] exceeds
    [145 + 30], yet the test of [animate] is false, as [150] does not, and
    the flake is still in the pool. *)
Lemma far_edges_reading_fails :
  exists this, controllers three_ticks !! 0%nat = Some this
    /\ rainflakes this = [0%nat]
    /\ DOMRect.y (bounds 0 (env three_ticks)) = Int 150
    /\ DOMRect.height (bounds 0 (env three_ticks)) = Int 30
    /\ out_of_bounds_by_far_edges (document this) (bounds 0 (env three_ticks)) = true
    /\ out_of_bounds (document this) (bounds 0 (env three_ticks)) = false.
Proof. eexists. split; [reflexivity|]. vm_compute. split_and!; reflexivity. Qed.

(** C2, amended: a flake the loop visits is removed exactly when, after
    its fall, its box's left edge [x] exceeds [viewport.width] plus the box
    width or its top edge [y] exceeds [viewport.height] plus the box
    height; and every flake that leaves the pool during a tick ends the
    tick at such a position. *)
Theorem animate_removes_past_the_margin (this : Controller) (e : Env) :
  pool_ok (rainflakes this) e ->
  (forall flake l t vw vh,
      flake ∈ rainflakes this ->
      get_left flake e = Int l -> get_top flake e = Int t ->
      document this = {| width := Int vw; height := Int vh |} ->
      flake ∉ rainflakes (animate_flake flake this e).1
      <-> (l > vw + css_width \/ t + FALL_RATE (config this) > vh + css_height))
  /\ (forall f, f ∈ rainflakes this -> f ∉ rainflakes (animate this e).1 ->
        box_out (document this) f (animate this e).2 = true).
Proof.
  intros Hok. split.
  - intros flake l t vw vh Hin Hl Ht Hdoc.
    destruct (animate_flake_ok flake this e Hok Hin) as (_ & _ & -> & _).
    destruct Hok as [_ Hatt]. pose proof (is_attached_valid _ _ (Hatt _ Hin)) as Hv.
    unfold box_out, fall. rewrite get_left_set_top, get_top_set_top, Hl, Ht, Hdoc.
    rewrite !decide_True by done. cbn.
    rewrite orb_true_iff, !Z.ltb_lt. lia.
  - intros f Hin Hn. now apply (animate_from_ok _ 0 this e Hok).
Qed.

(** ** The scenario of one flake falling 100 a tick *)

Lemma animate_single (this : Controller) (e : Env) (f : nat) :
  rainflakes this = [f] -> animate this e = animate_flake f this e.
Proof.
  intros Hp. unfold animate. rewrite Hp. cbn. rewrite Hp. cbn.
  now destruct (animate_flake f this e).
Qed.

Lemma animate_flake_inside (f : nat) (this : Controller) (e : Env) :
  is_attached f e = true ->
  box_out (document this) f (fall f this e) = false ->
  animate_flake f this e = (this, fall f this e).
Proof.
  intros Ha Hb. destruct (animate_flake_cases f this e) as [[_ ->] | [Ho _]]; [done|].
  rewrite bounds_attached in Ho; [congruence|].
  unfold fall. now rewrite is_attached_set_top.
Qed.

Lemma animate_flake_outside (f : nat) (this : Controller) (e : Env) :
  is_attached f e = true ->
  box_out (document this) f (fall f this e) = true ->
  animate_flake f this e
  = spawn (remove f this (fall f this e)).1 (remove f this (fall f this e)).2.
Proof.
  intros Ha Hb. destruct (animate_flake_cases f this e) as [[Ho _] | [_ ->]]; [|done].
  rewrite bounds_attached in Ho; [congruence|].
  unfold fall. now rewrite is_attached_set_top.
Qed.

(** C3, as stated, fails: after the first tick the pool still holds the
    flake that was spawned, attached and at [top = 100]; no replacement was
    created. *)
Lemma scenario_first_tick_keeps_the_flake :
  exists this, controllers (fire (Tick 0) scenario) !! 0%nat = Some this
    /\ rainflakes this = [0%nat]
    /\ get_top 0 (env scenario) = Int 0
    /\ get_top 0 (env (fire (Tick 0) scenario)) = Int 100
    /\ is_attached 0 (env (fire (Tick 0) scenario)) = true
    /\ length (flakes (env (fire (Tick 0) scenario))) = 1%nat.
Proof. eexists. split; [reflexivity|]. vm_compute. split_and!; reflexivity. Qed.

(** C3, amended: with [{limit: 1, blur: 0, fallRate: 100, swayRate: 0}], a
    viewport of 100 by 100 and one flake at [top = 0], whose [left] is not
    past 100 plus the box's width, the first tick moves the flake to
    [top = 100] and keeps it, since 100 does not exceed 100 + 30; the second
    tick moves it to [top = 200], removes it and spawns its replacement, so
    the pool still holds one flake, at [top = 0]. *)
Theorem scenario_recycles_on_second_tick (this : Controller) (e : Env) (f : nat) :
  config this = scenario_layer ->
  document this = {| width := Int 100; height := Int 100 |} ->
  rainflakes this = [f] ->
  is_attached f e = true ->
  ngt (get_left f e) (nadd (Int 100) (Int css_width)) = false ->
  get_top f e = Int 0 ->
  let t1 := animate this e in
  let t2 := animate t1.1 t1.2 in
  rainflakes t1.1 = [f] /\ get_top f t1.2 = Int 100 /\ is_attached f t1.2 = true
  /\ get_top f t2.2 = Int 200
  /\ exists g, g <> f /\ rainflakes t2.1 = [g]
               /\ get_top g t2.2 = Int 0 /\ is_attached g t2.2 = true
               /\ is_attached f t2.2 = false.
Proof.
  intros Hcfg Hdoc Hpool Ha Hx Hy t1 t2.
  pose proof (is_attached_valid _ _ Ha) as Hv.
  assert (get_top f (fall f this e) = Int 100) as Hy1.
  { unfold fall. rewrite get_top_set_top, Hy, Hcfg. now rewrite !decide_True. }
  assert (get_left f (fall f this e) = get_left f e) as Hx1.
  { unfold fall. now rewrite get_left_set_top. }
  assert (is_attached f (fall f this e) = true) as Ha1.
  { unfold fall. now rewrite is_attached_set_top. }
  assert (t1 = (this, fall f this e)) as Ht1.
  { subst t1. rewrite (animate_single _ _ f Hpool). apply animate_flake_inside; [done|].
    unfold box_out. rewrite Hx1, Hy1, Hdoc. cbn [width height]. now rewrite Hx. }
  subst t2. rewrite Ht1. cbn [fst snd]. do 3 (split; [done|]).
  set (e1 := fall f this e) in *.
  assert (length (flakes e1) = length (flakes e)) as Hlen1.
  { subst e1. unfold fall. cbn. apply length_alter. }
  assert (get_top f (fall f this e1) = Int 200) as Hy2.
  { unfold fall. rewrite get_top_set_top, Hy1, Hcfg, Hlen1. now rewrite !decide_True. }
  rewrite (animate_single _ _ f Hpool), animate_flake_outside; [|done|].
  2:{ unfold box_out. rewrite Hy2, Hdoc. cbn. apply orb_true_r. }
  set (e2 := (remove f this (fall f this e1)).2).
  assert (length (flakes e2) = length (flakes e)) as Hlen2.
  { subst e2. cbn. now rewrite !length_alter. }
  assert (get_top f (spawn (remove f this (fall f this e1)).1 e2).2 = Int 200) as Hy3.
  { destruct (same_flake e2 (spawn (remove f this (fall f this e1)).1 e2).2 f) as (_ & -> & _);
      [apply spawn_old; lia|].
    subst e2. cbn [remove snd]. now rewrite get_top_element_remove. }
  split; [exact Hy3|].
  exists (length (flakes e2)). rewrite spawn_pool. split_and!.
  - lia.
  - cbn [remove fst]. cbn [rainflakes set_rainflakes]. rewrite Hpool. cbn [indexOf].
    now rewrite Nat.eqb_refl.
  - apply spawn_new.
  - apply spawn_new.
  - destruct (same_flake e2 (spawn (remove f this (fall f this e1)).1 e2).2 f) as (_ & _ & ->);
      [apply spawn_old; lia|].
    subst e2. cbn [remove snd]. rewrite is_attached_element_remove. now rewrite decide_True.
Qed.

(** ** [main] *)

(** [main] on the configuration of the source: three running controllers
    with empty pools, each with its [generate] waiting at [i = 0] and its
    interval registered. *)
Lemma main_starts_every_layer (doc : Document) (rnd : nat -> num -> num) :
  let w := main aSocketrain_CONFIG doc rnd in
  map active (controllers w) = [true; true; true]
  /\ map rainflakes (controllers w) = [[]; []; []]
  /\ map interval (controllers w) = [Some 2; Some 4; Some 6]%nat
  /\ intervals (env w) = [(2, 0); (4, 1); (6, 2)]%nat
  /\ timeouts (env w) = [(0%nat, 0); (1%nat, 0); (2%nat, 0)].
Proof. cbv zeta. split_and!; reflexivity. Qed.

(** ** The pool while [generate] fills it *)

Lemma invoke_lookup (m : nat -> Controller -> Env -> Controller * Env) (k k' : nat) (w : World) :
  controllers (invoke m k w) !! k'
  = match controllers w !! k with
    | Some this => if decide (k = k') then Some (m k this (env w)).1 else controllers w !! k'
    | None => controllers w !! k'
    end.
Proof.
  unfold invoke. destruct (controllers w !! k) as [this|] eqn:Hk; [|done].
  destruct (m k this (env w)) as [this1 e1]. cbn. case_decide as Hkk.
  - subst k'. apply list_lookup_insert_eq. now apply lookup_lt_Some in Hk.
  - now apply list_lookup_insert_ne.
Qed.

Lemma invoke_env (m : nat -> Controller -> Env -> Controller * Env) (k : nat) (w : World) :
  env (invoke m k w)
  = match controllers w !! k with
    | Some this => (m k this (env w)).2
    | None => env w
    end.
Proof.
  unfold invoke. destruct (controllers w !! k) as [this|]; [|done].
  now destruct (m k this (env w)).
Qed.

Lemma pending_delete_other (k k' : nat) (i : Z) (n : nat) (ts : list (nat * Z)) :
  ts !! n = Some (k', i) -> k' <> k -> pending k (delete n ts) = pending k ts.
Proof.
  intros Hn Hne. rewrite <- (take_drop_middle _ _ _ Hn) at 2.
  rewrite delete_take_drop. unfold pending. rewrite !filter_app.
  now rewrite filter_cons_False.
Qed.

Lemma pending_delete_own (k : nat) (i : Z) (n : nat) (ts : list (nat * Z)) (t : nat * Z) :
  ts !! n = Some (k, i) -> pending k ts = [t] ->
  t = (k, i) /\ pending k (delete n ts) = [].
Proof.
  intros Hn Hp. rewrite <- (take_drop_middle _ _ _ Hn) in Hp.
  rewrite delete_take_drop. unfold pending in *. rewrite !filter_app in *.
  rewrite filter_cons_True in Hp by done.
  destruct (filter _ (take n ts)) as [|a l]; cbn in Hp.
  - injection Hp as <- ->. done.
  - injection Hp as _ Hp. now destruct l.
Qed.

Lemma pending_none (k : nat) (i : Z) (n : nat) (ts : list (nat * Z)) :
  ts !! n = Some (k, i) -> pending k ts <> [].
Proof.
  intros Hn Hp. apply (filter_nil_not_elem_of _ _ (k, i)) in Hp; [|done].
  apply Hp. eapply list_elem_of_lookup_2, Hn.
Qed.

Lemma generate_loop_spec (self : nat) (i : Z) (this : Controller) (e : Env) :
  flakes (generate_loop self i this e) = flakes e
  /\ intervals (generate_loop self i this e) = intervals e
  /\ timeouts (generate_loop self i this e)
     = timeouts e ++ (if i <? LIMIT (config this) then [(self, i)] else []).
Proof.
  unfold generate_loop. destruct (i <? LIMIT (config this)); cbn;
    rewrite ?app_nil_r; done.
Qed.

Lemma generate_resume_spec (self : nat) (i : Z) (this : Controller) (e : Env) :
  let r := generate_resume self i this e in
  (active this = false -> r = (this, e))
  /\ (active this = true ->
      r.1 = (spawn this e).1
      /\ flakes r.2 = flakes (spawn this e).2
      /\ intervals r.2 = intervals e
      /\ timeouts r.2
         = timeouts e ++ (if i + 1 <? LIMIT (config this) then [(self, i + 1)] else [])).
Proof.
  unfold generate_resume. split; intros ->; cbn [negb]; [done|].
  destruct (spawn this e) as [this1 e1] eqn:Hs. cbn [fst snd].
  destruct (generate_loop_spec self (i + 1) this1 e1) as (-> & -> & ->).
  assert (config this1 = config this) as -> by (now inversion Hs).
  assert (timeouts e1 = timeouts e) as -> by (now inversion Hs).
  assert (intervals e1 = intervals e) as -> by (now inversion Hs).
  done.
Qed.

Lemma filling_fire (cfg : CONFIG) (k : nat) (t : timer) (w : World) :
  filling cfg k w -> filling cfg k (fire t w).
Proof.
  intros (this & Hk & Hcfg & Hact & Hle & Hpend). destruct t as [n | n]; cbn [fire].
  - destruct (intervals (env w) !! n) as [[h k']|]; [|by exists this].
    unfold filling. rewrite invoke_lookup, invoke_env.
    destruct (controllers w !! k') as [this'|] eqn:Hk'; [|by exists this].
    pose proof (animate_from_fields (length (rainflakes this')) 0 this' (env w))
      as (Hc & _ & Ha & _ & _ & Ht & _).
    fold (animate this' (env w)) in *. rewrite Ht. case_decide as Hkk.
    + subst k'. assert (this' = this) as -> by congruence.
      eexists. split; [done|]. unfold animate at 3 4 5. rewrite animate_from_length.
      rewrite Hc, Ha. done.
    + by exists this.
  - destruct (timeouts (env w) !! n) as [[k' i]|] eqn:Hn; [|by exists this].
    unfold filling. rewrite invoke_lookup, invoke_env. cbn [controllers env].
    destruct (decide (k' = k)) as [-> | Hne].
    + rewrite Hk.
      destruct (Z.ltb_spec (Z.of_nat (length (rainflakes this))) (LIMIT cfg)) as [Hlt | Hge];
        [|now apply pending_none in Hn].
      destruct (pending_delete_own _ _ _ _ _ Hn Hpend) as [Hi Hdel].
      injection Hi as Hi.
      destruct (generate_resume_spec k i this (set_timeouts (delete n (timeouts (env w))) (env w)))
        as [_ Hres]. destruct (Hres Hact) as (H1 & _ & _ & H4).
      eexists. split; [done|]. rewrite H1, H4. cbn [timeouts set_timeouts].
      rewrite spawn_pool. cbn [config active set_rainflakes]. rewrite length_app. cbn [length].
      unfold pending in *. rewrite filter_app, Hdel, Hcfg. subst i.
      replace (Z.of_nat (length (rainflakes this)) + 1)
        with (Z.of_nat (length (rainflakes this) + 1)) by lia.
      split_and!; [done | done | lia |].
      destruct (Z.of_nat (length (rainflakes this) + 1) <? LIMIT cfg); cbv iota;
        [now rewrite filter_cons_True | done].
    + assert (controllers w !! k
              = Some this /\ pending k (delete n (timeouts (env w)))
                             = pending k (timeouts (env w))) as [_ Hsame]
        by (split; [done | eapply pending_delete_other; done]).
      destruct (controllers w !! k') as [this'|] eqn:Hk'.
      * exists this. split_and!; try done.
        rewrite <- Hpend, <- Hsame.
        destruct (generate_resume_spec k' i this'
                    (set_timeouts (delete n (timeouts (env w))) (env w))) as [Hoff Hon].
        destruct (active this') eqn:Ha'.
        -- destruct (Hon eq_refl) as (_ & _ & _ & ->). cbn [timeouts set_timeouts].
           unfold pending. rewrite filter_app.
           destruct (i + 1 <? LIMIT (config this')); cbv iota;
             [rewrite filter_cons_False by done|]; now rewrite app_nil_r.
        -- now rewrite (Hoff eq_refl).
      * exists this. split_and!; try done. now rewrite <- Hpend, <- Hsame.
Qed.

Lemma filling_elapse (cfg : CONFIG) (k : nat) (ts : list timer) (w : World) :
  filling cfg k w -> filling cfg k (elapse ts w).
Proof.
  revert w. induction ts as [|t ts IH]; intros w Hw; [done|].
  cbn. apply IH. now apply filling_fire.
Qed.

Lemma start_spec (self : nat) (this : Controller) (e : Env) :
  active this = false ->
  let r := start self this e in
  rainflakes r.1 = rainflakes this /\ config r.1 = config this
  /\ document r.1 = document this /\ active r.1 = true
  /\ flakes r.2 = flakes e
  /\ (exists h, interval r.1 = Some h /\ intervals r.2 = intervals e ++ [(h, self)])
  /\ timeouts r.2
     = timeouts e ++ (if Z.of_nat (length (rainflakes this)) <? LIMIT (config this)
                      then [(self, Z.of_nat (length (rainflakes this)))] else []).
Proof.
  intros Hact. unfold start. rewrite Hact. cbn.
  unfold generate, generate_loop. cbn.
  destruct (_ <? _); cbn; split_and!; eauto using app_nil_r.
Qed.

Lemma filling_start (w : World) (k : nat) (this : Controller) :
  controllers w !! k = Some this ->
  active this = false ->
  pending k (timeouts (env w)) = [] ->
  Z.of_nat (length (rainflakes this)) <= LIMIT (config this) ->
  filling (config this) k (invoke start k w).
Proof.
  intros Hk Hact Hpend Hle. unfold filling.
  rewrite invoke_lookup, invoke_env, Hk. rewrite decide_True by done.
  destruct (start_spec k this (env w) Hact) as (Hp & Hc & _ & Ha & _ & _ & Ht).
  eexists. split; [done|]. rewrite Hp, Hc, Ha, Ht.
  unfold pending in *. rewrite filter_app, Hpend. split_and!; [done..|].
  destruct (Z.of_nat (length (rainflakes this)) <? LIMIT (config this)); cbv iota;
    [now rewrite filter_cons_True | done].
Qed.

(** C1, as stated, fails for an initial pool above the limit: [generate]
    has returned, the controller is ticking, and the pool holds two flakes
    under a limit of one. *)
Lemma pool_above_limit_stays :
  exists this, controllers overfull !! 0%nat = Some this
    /\ LIMIT (config this) = 1
    /\ length (rainflakes this) = 2%nat
    /\ active this = true
    /\ timeouts (env overfull) = []
    /\ length (intervals (env overfull)) = 1%nat.
Proof. eexists. split; [reflexivity|]. vm_compute. split_and!; reflexivity. Qed.

(** Why the amended statement asks for no earlier [generate] in flight:
    [stop()] leaves the waiting call alone, [start()] launches a second one,
    and once [active] is true again both go on to spawn; the pool ends at
    four flakes under a limit of two. *)
Lemma restart_doubles_generate :
  map (fun this => (LIMIT (config this), length (rainflakes this))) (controllers restarted)
  = [(2, 4%nat)]
  /\ timeouts (env restarted) = [].
Proof. vm_compute. split; reflexivity. Qed.

Lemma filling_new_Controller (cfg layer : CONFIG) (doc : Document) (k : nat) (w : World) :
  filling cfg k w -> filling cfg k (new_Controller layer doc w).
Proof.
  intros (this & Hk & Hcfg & Hact & Hle & Hpend). unfold new_Controller, filling.
  set (this0 := {| config := layer; rainflakes := []; document := doc;
                   active := false; interval := None |}).
  destruct (start_spec (length (controllers w)) this0 (env w) eq_refl)
    as (_ & _ & _ & _ & _ & _ & Ht).
  destruct (start (length (controllers w)) this0 (env w)) as [this1 e1].
  cbn [fst snd controllers env] in *. exists this.
  pose proof (lookup_lt_Some _ _ _ Hk) as Hlt.
  rewrite lookup_app_l by done. split_and!; [done..|].
  rewrite Ht. unfold pending in *. rewrite filter_app, Hpend.
  match goal with |- context [filter _ (if ?b then _ else _)] => destruct b end;
    cbv iota; [rewrite filter_cons_False by (cbn; lia)|]; now rewrite app_nil_r.
Qed.

Lemma new_Controller_bounded (layer : CONFIG) (doc : Document) (w : World) :
  timeouts_bounded w -> timeouts_bounded (new_Controller layer doc w).
Proof.
  intros Hb. unfold new_Controller, timeouts_bounded.
  set (this0 := {| config := layer; rainflakes := []; document := doc;
                   active := false; interval := None |}).
  destruct (start_spec (length (controllers w)) this0 (env w) eq_refl)
    as (_ & _ & _ & _ & _ & _ & Ht).
  destruct (start (length (controllers w)) this0 (env w)) as [this1 e1].
  cbn [fst snd controllers env] in *. rewrite Ht, length_app. cbn [length].
  intros k i [Hin | Hin]%elem_of_app; [apply Hb in Hin; lia|].
  destruct (_ <? _); [|list_mem].
  apply list_elem_of_singleton in Hin. injection Hin as -> _. lia.
Qed.

Lemma new_Controller_filling (layer : CONFIG) (doc : Document) (w : World) :
  timeouts_bounded w -> 0 <= LIMIT layer ->
  filling layer (length (controllers w)) (new_Controller layer doc w).
Proof.
  intros Hb Hlim. unfold new_Controller, filling.
  set (this0 := {| config := layer; rainflakes := []; document := doc;
                   active := false; interval := None |}).
  destruct (start_spec (length (controllers w)) this0 (env w) eq_refl)
    as (Hp & Hc & _ & Ha & _ & _ & Ht).
  destruct (start (length (controllers w)) this0 (env w)) as [this1 e1].
  cbn [fst snd controllers env] in *. exists this1.
  rewrite list_lookup_middle by done. rewrite Hp. split_and!; [done..|].
  rewrite Ht. unfold pending. rewrite filter_app. subst this0. cbn [config rainflakes].
  assert (filter (fun t : nat * Z => t.1 = length (controllers w)) (timeouts (env w)) = [])
    as ->.
  { apply elem_of_nil_inv. intros [k i] [Hk Hin]%list_elem_of_filter.
    cbn in Hk. apply Hb in Hin. lia. }
  match goal with |- context [filter _ (if ?b then _ else _)] => destruct b end;
    cbv iota; [now rewrite filter_cons_True | done].
Qed.

Lemma main_filling (layers : list CONFIG) (doc : Document) (rnd : nat -> num -> num)
    (k : nat) (layer : CONFIG) :
  layers !! k = Some layer -> 0 <= LIMIT layer ->
  filling layer k (main layers doc rnd).
Proof.
  intros Hk Hlim. unfold main.
  assert (timeouts_bounded (blank rnd)) as Hb by (intros k0 i H; cbn in H; list_mem).
  assert (layers !! (k - length (controllers (blank rnd)))%nat = Some layer
          /\ (length (controllers (blank rnd)) <= k)%nat) as [Hk' Hge].
  { cbn. rewrite Nat.sub_0_r. split; [done | lia]. }
  clear Hk. revert Hb Hk' Hge. generalize (blank rnd).
  assert (forall ls w, filling layer k w ->
            filling layer k (foldl (fun w layer => new_Controller layer doc w) w ls)) as Hkeep.
  { induction ls as [|l ls IH]; intros w Hw; [done|].
    cbn. apply IH. now apply filling_new_Controller. }
  induction layers as [|l layers IH]; intros w Hb Hk Hge; [done|].
  cbn [foldl]. destruct (decide (k = length (controllers w))) as [-> | Hne].
  - rewrite Nat.sub_diag in Hk. injection Hk as ->.
    apply Hkeep. now apply new_Controller_filling.
  - apply IH.
    + now apply new_Controller_bounded.
    + assert (length (controllers (new_Controller l doc w)) = S (length (controllers w))) as ->.
      { unfold new_Controller. destruct (start _ _ _). cbn. rewrite length_app. cbn. lia. }
      replace (k - length (controllers w))%nat with (S (k - S (length (controllers w))))
        in Hk by lia. done.
    + assert (length (controllers (new_Controller l doc w)) = S (length (controllers w))) as ->.
      { unfold new_Controller. destruct (start _ _ _). cbn. rewrite length_app. cbn. lia. }
      lia.
Qed.

(** C1, amended: when [generate] is launched on a controller whose pool is
    within the limit and that has no earlier [generate] still waiting, by
    the constructor or by [start()] on a stopped controller, then however
    the delayed spawns and the ticks of all controllers interleave, the pool
    stays within the limit; once [generate] has returned it holds exactly
    [LIMIT] flakes. *)
Theorem pool_within_limit (cfg : CONFIG) (k : nat) (w : World) (ts : list timer) :
  launched cfg k w ->
  exists this, controllers (elapse ts w) !! k = Some this
    /\ config this = cfg
    /\ Z.of_nat (length (rainflakes this)) <= LIMIT cfg
    /\ (pending k (timeouts (env (elapse ts w))) = [] ->
        Z.of_nat (length (rainflakes this)) = LIMIT cfg).
Proof.
  intros Hl.
  assert (filling cfg k w) as Hfill.
  { destruct Hl; [now apply main_filling | now apply filling_start]. }
  destruct (filling_elapse _ _ ts _ Hfill) as (this' & Hk' & Hc & _ & Hle' & Hp').
  exists this'. split_and!; [done..|].
  intros Hnone. rewrite Hnone in Hp'.
  destruct (Z.ltb_spec (Z.of_nat (length (rainflakes this'))) (LIMIT cfg)); [done | lia].
Qed.

(** ** After [stop] *)

Lemma halted_fire (k : nat) (this : Controller) (e0 : Env) (t : timer) (w : World) :
  halted k this e0 w -> halted k this e0 (fire t w).
Proof.
  intros (Hk & Hoff & Hreg & Hown & Hdisj). destruct t as [n | n]; cbn [fire].
  - destruct (intervals (env w) !! n) as [[h k']|] eqn:Hn; [|done].
    assert (k' <> k) as Hne.
    { intros ->. apply (Hreg h). eapply list_elem_of_lookup_2, Hn. }
    destruct (controllers w !! k') as [this'|] eqn:Hk';
      [|unfold invoke; now rewrite Hk'].
    pose proof (animate_from_fields (length (rainflakes this')) 0 this' (env w))
      as (_ & _ & _ & _ & Hi & _).
    assert (forall f, f ∈ rainflakes this ->
              flakes (animate this' (env w)).2 !! f = flakes (env w) !! f
              /\ (f ∉ rainflakes (animate this' (env w)).1)
              /\ (length (flakes (env w)) <= length (flakes (animate this' (env w)).2))%nat)
      as Hframe.
    { intros f Hf. apply animate_from_frame; [eapply Hdisj; done | now apply Hown]. }
    unfold halted. rewrite invoke_env, Hk'. split_and!.
    + rewrite invoke_lookup, Hk'. now rewrite decide_False.
    + done.
    + unfold animate. now rewrite Hi.
    + intros f Hf. destruct (Hframe f Hf) as (H1 & _ & H3). destruct (Hown f Hf).
      split; [lia | congruence].
    + intros k'' this'' Hne'' Hk'' f Hf. rewrite invoke_lookup, Hk' in Hk''.
      case_decide; [|eapply Hdisj; done].
      injection Hk'' as Heq; subst this''. now apply Hframe.
  - destruct (timeouts (env w) !! n) as [[k' i]|] eqn:Hn; [|done].
    set (e1 := set_timeouts (delete n (timeouts (env w))) (env w)).
    assert (flakes e1 = flakes (env w) /\ intervals e1 = intervals (env w)) as [Hfl1 Hin1]
      by done.
    destruct (controllers w !! k') as [this'|] eqn:Hk';
      [|unfold invoke; cbn [controllers]; now rewrite Hk'].
    destruct (generate_resume_spec k' i this' e1) as [Hidle Hrun].
    unfold halted. rewrite invoke_env, invoke_lookup. cbn [controllers env]. rewrite Hk'.
    destruct (active this') eqn:Hact.
    + assert (k' <> k) as Hne by (intros ->; congruence).
      destruct (Hrun eq_refl) as (H1 & H2 & H3 & _).
      rewrite decide_False by done. rewrite H2, H3, Hin1. split_and!; [done..| |].
      * intros f Hf. destruct (Hown f Hf) as [Hv Hsame]. cbn [spawn Math_random_times new_rainflake snd flakes set_flakes].
        rewrite Hfl1, length_app, lookup_app_l by done. split; [lia | done].
      * intros k'' this'' Hne'' Hk'' f Hf. rewrite invoke_lookup in Hk''.
        cbn [controllers env] in Hk''. rewrite Hk' in Hk''.
        case_decide; [|eapply Hdisj; done].
        injection Hk'' as Heq; subst this''. rewrite H1, spawn_pool, Hfl1.
        intros [Hin | Hin]%elem_of_app; [now apply (Hdisj k' this' Hne Hk' f)|].
        apply list_elem_of_singleton in Hin. destruct (Hown f Hf). lia.
    + rewrite (Hidle eq_refl). cbn [fst snd]. rewrite Hfl1, Hin1.
      split_and!; [|done..|].
      * case_decide; [congruence | done].
      * intros k'' this'' Hne'' Hk''. rewrite invoke_lookup in Hk''.
        cbn [controllers env] in Hk''. rewrite Hk', (Hidle eq_refl) in Hk''.
        case_decide; [|eapply Hdisj; done].
        injection Hk'' as Heq; subst. now apply (Hdisj k'' this'').
Qed.

Lemma halted_elapse (k : nat) (this : Controller) (e0 : Env) (ts : list timer) (w : World) :
  halted k this e0 w -> halted k this e0 (elapse ts w).
Proof.
  revert w. induction ts as [|t ts IH]; intros w Hw; [done|].
  cbn. apply IH. now apply halted_fire.
Qed.

Lemma halted_stop (w : World) (k : nat) (this : Controller) :
  world_ok w -> controllers w !! k = Some this ->
  halted k (stop this (env w)).1 (env w) (invoke (fun _ => stop) k w).
Proof.
  intros (Hreg & Hvalid & Hdisj) Hk. unfold halted.
  rewrite invoke_lookup, invoke_env, Hk. rewrite decide_True by done.
  split_and!; [done | done | | |].
  - intros h Hin. cbn in Hin.
    assert ((h, k) ∈ intervals (env w) /\ interval this <> Some h) as [Hin' Hh].
    { destruct (interval this) as [h0|]; cbn in Hin.
      - apply list_elem_of_filter in Hin as [Hne Hin]. cbn in Hne.
        split; [done | congruence].
      - split; [done | congruence]. }
    destruct (Hreg h k Hin') as (this0 & Hk0 & _ & Hi0). congruence.
  - intros f Hf. cbn in Hf.
    assert (flakes (stop this (env w)).2 = flakes (env w)) as ->
      by (cbn; now destruct (interval this)).
    split; [|done]. destruct (Hvalid k this Hk) as [_ Hatt].
    now apply is_attached_valid, Hatt.
  - intros k' this' Hne Hk' f Hf. rewrite invoke_lookup, Hk in Hk'.
    rewrite decide_False in Hk' by done. cbn in Hf.
    eapply (Hdisj k k'); done.
Qed.

(** ** [command] *)

Lemma command_falsy (cmd : string) (w : World) (first : Controller) :
  controllers w !! 0%nat = Some first ->
  truthy (get first cmd) = false ->
  command cmd w = Normal w.
Proof. intros Hf Hc. unfold command. now rewrite Hf, Hc. Qed.

Lemma command_each_normal (cmd : string) (op : nat -> Controller -> Env -> Controller * Env)
    (ks : list nat) (w : World) :
  (forall k w, call cmd k w = Normal (invoke op k w)) ->
  command_each cmd ks w = Normal (foldl (fun w k => invoke op k w) w ks).
Proof.
  intros Hcall. revert w. induction ks as [|k ks IH]; intros w; [done|].
  cbn. now rewrite Hcall, IH.
Qed.

Lemma call_documented (k : nat) (w : World) :
  call "start" k w = Normal (invoke start k w)
  /\ call "stop" k w = Normal (invoke (fun _ => stop) k w)
  /\ call "spawn" k w = Normal (invoke (fun _ => spawn) k w)
  /\ call "clear" k w = Normal (invoke (fun _ => clear) k w).
Proof.
  unfold call. destruct (controllers w !! k) as [this|] eqn:Hk.
  - cbn -[invoke]. done.
  - unfold invoke. now rewrite Hk.
Qed.

(** The four documented commands run their method on every controller, in
    order. *)
Lemma command_documented (w : World) (first : Controller) :
  controllers w !! 0%nat = Some first ->
  let all op := Normal (foldl (fun w k => invoke op k w) w (seq 0 (length (controllers w)))) in
  command "start" w = all start
  /\ command "stop" w = all (fun _ => stop)
  /\ command "spawn" w = all (fun _ => spawn)
  /\ command "clear" w = all (fun _ => clear).
Proof.
  intros Hf. unfold command. rewrite Hf. cbn [get truthy negb].
  split_and!; apply command_each_normal; intros k w0; apply call_documented.
Qed.

(** A name of a property that is not a function but is truthy passes the
    guard, and calling it throws: so for ["config"] on every page with a
    controller. *)
Lemma command_config_always_throws (w : World) (first : Controller) :
  controllers w !! 0%nat = Some first -> command "config" w = TypeError w.
Proof.
  intros Hf. unfold command. rewrite Hf. cbn [get truthy negb].
  destruct (controllers w) as [|c cs] eqn:Hcs; [done|].
  cbn [length seq command_each]. unfold call. rewrite Hcs. cbn.
  injection Hf as ->. reflexivity.
Qed.

(** C8, in the code: ["config"] names no operation, yet [command("config")]
    on the page of the scenario throws a [TypeError] instead of doing
    nothing: [controllers[0]["config"]] is the layer's configuration object,
    so the guard does not return, and [controller["config"]()] is not a
    call of a function. *)
Theorem command_config_throws :
  command "config" scenario = TypeError scenario
  /\ command "no such command" scenario = Normal scenario.
Proof. split; reflexivity. Qed.

(** ** Every page the script can reach is in good order *)

Lemma foldl_flakes (st : Env -> nat -> Env) (l : list nat) (e : Env) :
  (forall e g, length (flakes (st e g)) = length (flakes e)) ->
  (forall e g f, f <> g -> flakes (st e g) !! f = flakes e !! f) ->
  length (flakes (foldl st e l)) = length (flakes e)
  /\ forall f, f ∉ l -> flakes (foldl st e l) !! f = flakes e !! f.
Proof.
  intros Hlen Hfr. revert e. induction l as [|g l IH]; intros e; [done|].
  cbn. destruct (IH (st e g)) as [H1 H2]. split; [now rewrite H1|].
  intros f [Hne Hnin]%not_elem_of_cons. rewrite H2 by done. now apply Hfr.
Qed.

Lemma foldl_intervals (st : Env -> nat -> Env) (l : list nat) (e : Env) :
  (forall e g, intervals (st e g) = intervals e) ->
  intervals (foldl st e l) = intervals e.
Proof.
  intros Hst. revert e. induction l as [|g l IH]; intros e; [done|].
  cbn. now rewrite IH.
Qed.

Lemma foldl_attached (st : Env -> nat -> Env) (l : list nat) (e : Env) (f : nat) :
  (forall e g, is_attached f (st e g) = is_attached f e) ->
  is_attached f (foldl st e l) = is_attached f e.
Proof.
  intros Hst. revert e. induction l as [|g l IH]; intros e; [done|].
  cbn. now rewrite IH.
Qed.

Lemma tidy_spawn : tidy spawn.
Proof.
  intros this e. rewrite spawn_pool. split_and!.
  - intros f [H | H]%elem_of_app; [now left | right].
    apply list_elem_of_singleton in H. lia.
  - cbn. rewrite length_app. lia.
  - intros f Hf _. now apply spawn_old.
  - intros [Hnd Hatt]. split.
    + apply NoDup_app. split_and!; [done | | apply NoDup_singleton].
      intros f Hf Hf'. apply list_elem_of_singleton in Hf'. subst f.
      apply Hatt, is_attached_valid in Hf. lia.
    + intros f [Hf | Hf]%elem_of_app.
      * pose proof (Hatt f Hf) as Ha.
        destruct (same_flake e (spawn this e).2 f) as (_ & _ & ->); [|done].
        now apply spawn_old, is_attached_valid.
      * apply list_elem_of_singleton in Hf. subst f. apply spawn_new.
Qed.

Lemma quiet_spawn : quiet spawn.
Proof. intros this e. done. Qed.

Lemma tidy_animate : tidy animate.
Proof.
  intros this e. unfold animate.
  pose proof (animate_from_length (length (rainflakes this)) 0 this e) as _.
  split_and!.
  - generalize (length (rainflakes this)) at 1. intros fuel. generalize 0%nat.
    revert this e. induction fuel as [|fuel IH]; intros this e index f; [now left|].
    cbn. destruct (rainflakes this !! index) as [flake|]; [|now left].
    pose proof (animate_flake_members flake this e) as Hm.
    pose proof (animate_flake_grows flake this e) as Hg.
    destruct (animate_flake flake this e) as [this1 e1]. cbn [fst snd] in *.
    intros [H | H]%IH; [apply Hm in H as [H | H]; [now left | right; lia] | right; lia].
  - generalize (length (rainflakes this)) at 1. intros fuel. generalize 0%nat.
    revert this e. induction fuel as [|fuel IH]; intros this e index; [done|].
    cbn. destruct (rainflakes this !! index) as [flake|]; [|done].
    pose proof (animate_flake_grows flake this e) as Hg.
    destruct (animate_flake flake this e) as [this1 e1]. cbn [fst snd] in *.
    etrans; [apply Hg | apply IH].
  - intros f Hf Hn. now apply animate_from_frame.
  - intros Hok. now apply animate_from_ok.
Qed.

Lemma quiet_animate : quiet animate.
Proof.
  intros this e.
  pose proof (animate_from_fields (length (rainflakes this)) 0 this e)
    as (_ & _ & Ha & Hi & Hs & _).
  done.
Qed.

Lemma tidy_clear : tidy clear.
Proof.
  intros this e.
  destruct (foldl_flakes (fun e flake => element_remove flake e) (rainflakes this) e)
    as [Hlen Hfr].
  { intros e0 g. cbn. apply length_alter. }
  { intros e0 g f Hne. cbn. now apply list_lookup_alter_ne. }
  split_and!.
  - intros f Hf. cbn in Hf. list_mem.
  - cbn [clear snd]. lia.
  - intros f _ Hf. now apply Hfr.
  - intros _. split; [apply NoDup_nil_2 | intros g Hg; cbn in Hg; list_mem].
Qed.

Lemma quiet_clear : quiet clear.
Proof.
  intros this e. split_and!; [|done..]. cbn [clear snd].
  now apply foldl_intervals.
Qed.

Lemma tidy_resize (width0 height0 : num) : tidy (resize width0 height0).
Proof.
  intros this e. unfold resize. cbn [fst snd rainflakes set_document].
  set (st := fun e flake => set_top flake _ (set_left flake _ e)).
  destruct (foldl_flakes st (rainflakes this) e) as [Hlen Hfr].
  { intros e0 g. subst st. cbn. now rewrite !length_alter. }
  { intros e0 g f Hne. subst st. cbn. now rewrite !list_lookup_alter_ne. }
  split_and!.
  - now left.
  - lia.
  - intros f _ Hf. now apply Hfr.
  - intros [Hnd Hatt]. split; [done|]. intros g Hg.
    rewrite foldl_attached; [auto|].
    intros e0 g0. subst st. cbn beta. now rewrite is_attached_set_top, is_attached_set_left.
Qed.

Lemma quiet_resize (width0 height0 : num) : quiet (resize width0 height0).
Proof.
  intros this e. split_and!; [|done..]. unfold resize. cbn [snd].
  now apply foldl_intervals.
Qed.

Lemma tidy_drop_last : tidy (fun this e => (set_rainflakes (splice (-1) 1 (rainflakes this)) this, e)).
Proof.
  intros this e. cbn [fst snd rainflakes set_rainflakes]. split_and!.
  - intros f Hf. left. eapply elem_of_splice, Hf.
  - done.
  - done.
  - intros [Hnd Hatt]. split.
    + eapply sublist_NoDup; [exact Hnd | apply splice_sublist].
    + intros g Hg. eapply Hatt, elem_of_splice, Hg.
Qed.

Lemma tidy_generate (self : nat) : tidy (fun this e => (this, generate self this e)).
Proof.
  intros this e. cbn [fst snd]. unfold generate.
  destruct (generate_loop_spec self (Z.of_nat (length (rainflakes this))) this e)
    as (Hf & _ & _).
  split_and!; [now left | now rewrite Hf | intros; now rewrite Hf |].
  intros [Hnd Hatt]. split; [done|]. intros g Hg.
  destruct (same_flake e (generate_loop self (Z.of_nat (length (rainflakes this))) this e) g)
    as (_ & _ & ->); [now rewrite Hf | auto].
Qed.

Lemma quiet_generate (self : nat) : quiet (fun this e => (this, generate self this e)).
Proof.
  intros this e. cbn [fst snd]. unfold generate.
  now destruct (generate_loop_spec self (Z.of_nat (length (rainflakes this))) this e)
    as (_ & -> & _).
Qed.

Lemma tidy_generate_resume (self : nat) (i : Z) : tidy (generate_resume self i).
Proof.
  intros this e. destruct (generate_resume_spec self i this e) as [Hoff Hon].
  destruct (active this).
  - destruct (Hon eq_refl) as (-> & Hf & _). destruct (tidy_spawn this e) as (H1 & H2 & H3 & H4).
    rewrite Hf. split_and!; [done..|].
    intros Hok. destruct (H4 Hok) as [Hnd Hatt]. split; [done|]. intros g Hg.
    destruct (same_flake (spawn this e).2 (generate_resume self i this e).2 g)
      as (_ & _ & ->); [now rewrite Hf | auto].
  - rewrite (Hoff eq_refl). cbn [fst snd]. split_and!; [now left | done..].
Qed.

Lemma quiet_generate_resume (self : nat) (i : Z) : quiet (generate_resume self i).
Proof.
  intros this e. destruct (generate_resume_spec self i this e) as [Hoff Hon].
  destruct (active this) eqn:Ha.
  - destruct (Hon eq_refl) as (-> & _ & -> & _). done.
  - now rewrite (Hoff eq_refl).
Qed.

Lemma quiet_drop_last :
  quiet (fun this e => (set_rainflakes (splice (-1) 1 (rainflakes this)) this, e)).
Proof. intros this e. done. Qed.

Create HintDb footprint.

#[local] Hint Resolve tidy_spawn quiet_spawn tidy_animate quiet_animate
  tidy_clear quiet_clear tidy_resize quiet_resize tidy_drop_last quiet_drop_last
  tidy_generate quiet_generate tidy_generate_resume quiet_generate_resume : footprint.

(** The pools and elements of a page stay in good order under a tidy
    method, whatever it does to the timers. *)
Lemma invoke_pools (op : nat -> Controller -> Env -> Controller * Env) (k : nat) (w : World) :
  tidy (op k) -> world_ok w ->
  (forall k' this', controllers (invoke op k w) !! k' = Some this' ->
     pool_ok (rainflakes this') (env (invoke op k w)))
  /\ (forall k1 k2 this1 this2 f, k1 <> k2 ->
        controllers (invoke op k w) !! k1 = Some this1 ->
        controllers (invoke op k w) !! k2 = Some this2 ->
        f ∈ rainflakes this1 -> f ∉ rainflakes this2).
Proof.
  intros Htidy (_ & Hpools & Hdisj).
  destruct (controllers w !! k) as [this|] eqn:Hk;
    [|unfold invoke; rewrite Hk; split; eauto].
  destruct (Htidy this (env w)) as (Hmem & Hgrow & Hframe & Hkeep).
  assert (forall k' this' f, k' <> k -> controllers w !! k' = Some this' ->
            f ∈ rainflakes this' ->
            (f < length (flakes (env w)))%nat /\ f ∉ rainflakes this) as Hother.
  { intros k' this' f Hne Hk' Hf. split.
    - destruct (Hpools k' this' Hk') as [_ Hatt]. now apply is_attached_valid, Hatt.
    - eapply Hdisj; done. }
  split.
  - intros k' this'. rewrite invoke_lookup, invoke_env, Hk. case_decide as Hkk.
    + intros [= <-]. apply Hkeep. eauto.
    + intros Hk'. destruct (Hpools k' this' Hk') as [Hnd Hatt]. split; [done|].
      intros f Hf. destruct (Hother k' this' f) as [Hv Hn]; [done..|].
      destruct (same_flake (env w) (op k this (env w)).2 f) as (_ & _ & ->); auto.
  - intros k1 k2 this1 this2 f Hne. rewrite !invoke_lookup, Hk.
    repeat case_decide; subst.
    + done.
    + intros [= <-] Hk2 Hf Hf2. destruct (Hother k2 this2 f) as [Hv Hn]; [done..|].
      apply Hmem in Hf as [Hf | Hf]; [done | lia].
    + intros Hk1 [= <-] Hf Hf2. destruct (Hother k1 this1 f) as [Hv Hn]; [done..|].
      apply Hmem in Hf2 as [Hf2 | Hf2]; [done | lia].
    + intros Hk1 Hk2. now apply (Hdisj k1 k2 this1 this2).
Qed.

Lemma invoke_ok (op : nat -> Controller -> Env -> Controller * Env) (k : nat) (w : World) :
  tidy (op k) -> quiet (op k) -> world_ok w -> world_ok (invoke op k w).
Proof.
  intros Htidy Hquiet Hok. destruct (invoke_pools op k w Htidy Hok) as [Hp Hd].
  split_and!; [|done..].
  destruct Hok as (Hreg & _). intros h k'.
  rewrite invoke_env, invoke_lookup.
  destruct (controllers w !! k) as [this|] eqn:Hk; [|apply Hreg].
  destruct (Hquiet this (env w)) as (-> & Ha & Hi). intros Hin.
  destruct (Hreg h k' Hin) as (this' & Hk' & Ha' & Hi').
  case_decide; [|eauto]. subst k'. eexists. split; [done|].
  rewrite Ha, Hi. split; congruence.
Qed.

Lemma tidy_start (self : nat) : tidy (start self).
Proof.
  intros this e. destruct (active this) eqn:Ha.
  - unfold start. rewrite Ha. cbn [fst snd]. split_and!; [now left | done..].
  - destruct (start_spec self this e Ha) as (-> & _ & _ & _ & Hf & _).
    rewrite Hf. split_and!; [now left | done | done |].
    intros [Hnd Hatt]. split; [done|]. intros g Hg.
    destruct (same_flake e (start self this e).2 g) as (_ & _ & ->); [now rewrite Hf | auto].
Qed.

Lemma tidy_stop : tidy stop.
Proof.
  intros this e.
  assert (flakes (stop this e).2 = flakes e) as Hf by (cbn; now destruct (interval this)).
  rewrite Hf. split_and!; [now left | done | done |].
  intros [Hnd Hatt]. split; [done|]. intros g Hg.
  destruct (same_flake e (stop this e).2 g) as (_ & _ & ->); [now rewrite Hf | apply Hatt, Hg].
Qed.

Lemma start_ok (k : nat) (w : World) : world_ok w -> world_ok (invoke start k w).
Proof.
  intros Hok. destruct (invoke_pools start k w (tidy_start k) Hok) as [Hp Hd].
  split_and!; [|done..].
  destruct Hok as (Hreg & _). intros h k'.
  rewrite invoke_env, invoke_lookup.
  destruct (controllers w !! k) as [this|] eqn:Hk; [|apply Hreg].
  destruct (active this) eqn:Ha.
  - unfold start. rewrite Ha. cbn [fst snd]. intros Hin.
    destruct (Hreg h k' Hin) as (this' & Hk' & Ha' & Hi').
    case_decide; [|eauto]. subst k'. exists this. split; [done|]. split; congruence.
  - destruct (start_spec k this (env w) Ha) as (_ & _ & _ & Ha1 & _ & (h0 & Hi1 & ->) & _).
    intros [Hin | Hin]%elem_of_app.
    + destruct (Hreg h k' Hin) as (this' & Hk' & Ha' & Hi').
      rewrite decide_False by (intros ->; congruence). eauto.
    + apply list_elem_of_singleton in Hin. injection Hin as -> ->.
      rewrite decide_True by done. eauto.
Qed.

Lemma stop_ok (k : nat) (w : World) : world_ok w -> world_ok (invoke (fun _ => stop) k w).
Proof.
  intros Hok. destruct (invoke_pools (fun _ => stop) k w tidy_stop Hok) as [Hp Hd].
  split_and!; [|done..].
  destruct Hok as (Hreg & _). intros h k'.
  rewrite invoke_env, invoke_lookup.
  destruct (controllers w !! k) as [this|] eqn:Hk; [|apply Hreg].
  intros Hin. cbn in Hin.
  assert ((h, k') ∈ intervals (env w) /\ interval this <> Some h) as [Hin' Hh].
  { destruct (interval this) as [h0|]; cbn in Hin.
    - apply list_elem_of_filter in Hin as [Hne Hin]. cbn in Hne. split; [done | congruence].
    - split; [done | congruence]. }
  destruct (Hreg h k' Hin') as (this' & Hk' & Ha' & Hi').
  rewrite decide_False by (intros ->; congruence). eauto.
Qed.

Lemma fire_ok (t : timer) (w : World) : world_ok w -> world_ok (fire t w).
Proof.
  intros Hok. destruct t as [n | n]; cbn [fire].
  - destruct (intervals (env w) !! n) as [[h k]|]; [|done].
    apply (invoke_ok (fun _ => animate)); auto with footprint.
  - destruct (timeouts (env w) !! n) as [[k i]|]; [|done].
    apply (invoke_ok (fun self => generate_resume self i)); auto with footprint.
Qed.

Lemma foldl_invoke_ok (op : nat -> Controller -> Env -> Controller * Env)
    (ks : list nat) (w : World) :
  (forall k, tidy (op k)) -> (forall k, quiet (op k)) ->
  world_ok w -> world_ok (foldl (fun w k => invoke op k w) w ks).
Proof.
  intros Ht Hq. revert w. induction ks as [|k ks IH]; intros w Hok; [done|].
  cbn. apply IH. now apply invoke_ok.
Qed.

Lemma on_resize_ok (clientWidth clientHeight : num) (w : World) :
  world_ok w -> world_ok (on_resize clientWidth clientHeight w).
Proof.
  intros Hok. unfold on_resize.
  apply (foldl_invoke_ok (fun _ => resize clientWidth clientHeight));
    auto with footprint.
Qed.

Lemma call_ok (cmd : string) (k : nat) (w : World) :
  world_ok w -> world_ok (after (call cmd k w)).
Proof.
  intros Hok. unfold call. destruct (controllers w !! k) as [this|]; [|done].
  destruct (get this cmd) as [| b | m | []]; try done.
  destruct m; cbn [call_method after].
  - now apply start_ok.
  - apply (invoke_ok (fun _ => spawn)); auto with footprint.
  - apply (invoke_ok (fun self this e => (this, generate self this e)));
      auto with footprint.
  - apply (invoke_ok (fun _ => animate)); auto with footprint.
  - apply (invoke_ok (fun _ this e => (set_rainflakes (splice (-1) 1 (rainflakes this)) this, e)));
      auto with footprint.
  - apply (invoke_ok (fun _ => clear)); auto with footprint.
  - now apply stop_ok.
  - apply (invoke_ok (fun _ => resize NaN NaN)); auto with footprint.
Qed.

Lemma command_each_ok (cmd : string) (ks : list nat) (w : World) :
  world_ok w -> world_ok (after (command_each cmd ks w)).
Proof.
  revert w. induction ks as [|k ks IH]; intros w Hok; [done|].
  cbn. pose proof (call_ok cmd k w Hok) as Hcall.
  destruct (call cmd k w) as [w1 | w1]; [now apply IH | done].
Qed.

Lemma command_ok (cmd : string) (w : World) :
  world_ok w -> world_ok (after (command cmd w)).
Proof.
  intros Hok. unfold command. destruct (controllers w !! 0%nat) as [first|]; [|done].
  destruct (negb _); [done | now apply command_each_ok].
Qed.

Lemma new_Controller_ok (layer : CONFIG) (doc : Document) (w : World) :
  world_ok w -> world_ok (new_Controller layer doc w).
Proof.
  intros (Hreg & Hpools & Hdisj). unfold new_Controller.
  set (this := {| config := layer; rainflakes := []; document := doc;
                  active := false; interval := None |}).
  destruct (start_spec (length (controllers w)) this (env w) eq_refl)
    as (Hp & _ & _ & Ha & Hf & (h0 & Hi & Hin) & _).
  destruct (start (length (controllers w)) this (env w)) as [this1 e1].
  cbn [fst snd] in *. unfold world_ok. cbn [controllers env]. split_and!.
  - intros h k. rewrite Hin. intros [H | H]%elem_of_app.
    + destruct (Hreg h k H) as (this' & Hk & Hrest). exists this'.
      rewrite lookup_app_l by (now apply lookup_lt_Some in Hk). done.
    + apply list_elem_of_singleton in H. injection H as -> ->.
      exists this1. rewrite list_lookup_middle by done. auto.
  - intros k this'. intros [[_ Hk] | [Hk [= <-]]]%lookup_snoc_Some.
    + destruct (Hpools k this') as [Hnd Hatt]; [done|]. split; [done|]. intros g Hg.
      destruct (same_flake (env w) e1 g) as (_ & _ & ->); [now rewrite Hf | auto].
    + rewrite Hp. split; [apply NoDup_nil_2 | intros g Hg; cbn in Hg; list_mem].
  - intros k k' this2 this' f Hne.
    intros [[Hk Hk2] | [Hk [= <-]]]%lookup_snoc_Some;
      intros [[Hk' Hk2'] | [Hk' [= <-]]]%lookup_snoc_Some.
    + now apply (Hdisj k k').
    + rewrite Hp. intros _. apply not_elem_of_nil.
    + rewrite Hp. intros H. cbn in H. list_mem.
    + lia.
Qed.

Lemma blank_ok (rnd : nat -> num -> num) : world_ok (blank rnd).
Proof.
  split_and!.
  - intros h k H. cbn in H. list_mem.
  - intros k this H. done.
  - intros k k' this this' f _ H. done.
Qed.

Lemma main_ok (layers : list CONFIG) (doc : Document) (rnd : nat -> num -> num) :
  world_ok (main layers doc rnd).
Proof.
  unfold main. generalize (blank_ok rnd). generalize (blank rnd).
  induction layers as [|layer layers IH]; intros w Hok; [done|].
  cbn. apply IH. now apply new_Controller_ok.
Qed.

Lemma reachable_ok (w : World) : reachable w -> world_ok w.
Proof.
  induction 1; auto using main_ok, fire_ok, on_resize_ok, command_ok.
Qed.

(** C5: once [stop()] has run, no timer coming due changes the pool or
    moves a flake of it, whatever comes due and in which order: no interval
    is left registered for the controller, so [animate] is not called
    again, and a [generate] that was waiting finds [active] false after its
    delay and returns without spawning. *)
Theorem stop_freezes_the_layer (w : World) (k : nat) (this : Controller) (ts : list timer) :
  reachable w ->
  controllers w !! k = Some this ->
  let w' := elapse ts (invoke (fun _ => stop) k w) in
  exists this', controllers w' !! k = Some this'
    /\ active this' = false
    /\ rainflakes this' = rainflakes this
    /\ (forall h, (h, k) ∉ intervals (env w'))
    /\ (forall f, f ∈ rainflakes this ->
          get_left f (env w') = get_left f (env w)
          /\ get_top f (env w') = get_top f (env w)
          /\ is_attached f (env w') = is_attached f (env w)).
Proof.
  intros Hok%reachable_ok Hk w'.
  destruct (halted_elapse _ _ _ ts _ (halted_stop w k this Hok Hk))
    as (Hk' & Hoff & Hreg & Hown & _).
  eexists. split_and!; [done | done | done | done |].
  intros f Hf. apply same_flake. now apply Hown.
Qed.

Lemma reachable_pool_ok (w : World) (k : nat) (this : Controller) :
  reachable w -> controllers w !! k = Some this -> pool_ok (rainflakes this) (env w).
Proof. intros (_ & Hpools & _)%reachable_ok Hk. eauto. Qed.

(** ** The theorems at work on the page of the scenario *)

Lemma scenario_reachable : reachable scenario.
Proof. exact (reach_timer (Delay 0) _ (reach_main _ _ _)). Defined.

Lemma pool_within_limit_witness :
  let w := main aSocketrain_CONFIG {| width := Int 100; height := Int 100 |} midway in
  let ts := [Delay 1; Tick 1; Delay 0; Delay 0; Tick 1] in
  launched {| LIMIT := 30; BLUR := 0; FALL_RATE := 30; SWAY_RATE := 0 |} 1 w
  /\ exists this, controllers (elapse ts w) !! 1%nat = Some this
       /\ config this = {| LIMIT := 30; BLUR := 0; FALL_RATE := 30; SWAY_RATE := 0 |}
       /\ Z.of_nat (length (rainflakes this)) <= 30
       /\ (pending 1 (timeouts (env (elapse ts w))) = [] ->
           Z.of_nat (length (rainflakes this)) = 30).
Proof.
  intros w ts.
  assert (launched {| LIMIT := 30; BLUR := 0; FALL_RATE := 30; SWAY_RATE := 0 |} 1 w) as H.
  { apply launched_by_main; [reflexivity | vm_compute; discriminate]. }
  split; [exact H|].
  exact (pool_within_limit _ 1 w ts H).
Defined.

Lemma animate_removes_past_the_margin_witness :
  pool_ok (rainflakes scenario_controller) (env scenario)
  /\ (0%nat ∉ rainflakes (animate_flake 0 scenario_controller (env scenario)).1
      <-> (50 > 100 + css_width \/ 0 + FALL_RATE (config scenario_controller) > 100 + css_height)).
Proof.
  assert (pool_ok (rainflakes scenario_controller) (env scenario)) as Hok.
  { split; [apply NoDup_singleton|]. intros g Hg.
    apply list_elem_of_singleton in Hg. now subst g. }
  split; [exact Hok|].
  apply (proj1 (animate_removes_past_the_margin scenario_controller (env scenario) Hok));
    [apply list_elem_of_singleton | ..]; reflexivity.
Defined.

Lemma scenario_recycles_on_second_tick_witness :
  let t1 := animate scenario_controller (env scenario) in
  let t2 := animate t1.1 t1.2 in
  is_attached 0 (env scenario) = true
  /\ get_left 0 (env scenario) = Int 50
  /\ ngt (get_left 0 (env scenario)) (nadd (Int 100) (Int css_width)) = false
  /\ get_top 0 (env scenario) = Int 0
  /\ rainflakes t1.1 = [0%nat] /\ get_top 0 t1.2 = Int 100 /\ is_attached 0 t1.2 = true
  /\ get_top 0 t2.2 = Int 200
  /\ exists g, g <> 0%nat /\ rainflakes t2.1 = [g]
               /\ get_top g t2.2 = Int 0 /\ is_attached g t2.2 = true
               /\ is_attached 0 t2.2 = false.
Proof.
  intros t1 t2. do 4 (split; [reflexivity|]).
  exact (scenario_recycles_on_second_tick scenario_controller (env scenario) 0
           eq_refl eq_refl eq_refl eq_refl eq_refl eq_refl).
Defined.

Lemma resize_translates_witness :
  let el := {| style_left := "50px"; style_top := "0px";
               style_filter := "blur(0px)"; attached := true |} in
  let r := Any.resize integers (Int 140) (Int 90) (rainflakes scenario_controller)
             (Int 100, Int 100) (flakes (env scenario)) in
  NoDup (rainflakes scenario_controller)
  /\ 0%nat ∈ rainflakes scenario_controller
  /\ flakes (env scenario) !! 0%nat = Some el
  /\ round_trips integers (Int 90)
  /\ round_trips integers (Int (-10))
  /\ flakes (resize (Int 140) (Int 90) scenario_controller (env scenario)).2 = r.1
  /\ exists el', r.1 !! 0%nat = Some el'
       /\ Any.get_left integers el' = Int 90
       /\ Any.get_top integers el' = Int (-10)
       /\ attached el' = true
       /\ r.2 = (Int 140, Int 90).
Proof.
  intros el r.
  assert (NoDup (rainflakes scenario_controller)) as H1 by apply NoDup_singleton.
  assert (0%nat ∈ rainflakes scenario_controller) as H2 by now apply list_elem_of_singleton.
  assert (round_trips integers (Int 90)) as H3 by (split; reflexivity).
  assert (round_trips integers (Int (-10))) as H4 by (split; reflexivity).
  split; [exact H1|]. split; [exact H2|]. split; [reflexivity|].
  split; [exact H3|]. split; [exact H4|]. split; [reflexivity|].
  exact (resize_translates integers (Int 140) (Int 90) (Int 100) (Int 100)
           (rainflakes scenario_controller) (flakes (env scenario)) 0 el
           H1 H2 eq_refl H3 H4).
Defined.

Lemma stop_freezes_the_layer_witness :
  let w' := elapse [Tick 0; Delay 0; Tick 0] (invoke (fun _ => stop) 0 scenario) in
  controllers scenario !! 0%nat = Some scenario_controller
  /\ exists this', controllers w' !! 0%nat = Some this'
       /\ active this' = false
       /\ rainflakes this' = rainflakes scenario_controller
       /\ (forall h, (h, 0%nat) ∉ intervals (env w'))
       /\ (forall f, f ∈ rainflakes scenario_controller ->
             get_left f (env w') = get_left f (env scenario)
             /\ get_top f (env w') = get_top f (env scenario)
             /\ is_attached f (env w') = is_attached f (env scenario)).
Proof.
  intros w'. split; [reflexivity|].
  exact (stop_freezes_the_layer scenario 0 scenario_controller [Tick 0; Delay 0; Tick 0]
           scenario_reachable eq_refl).
Defined.

Lemma start_twice_witness :
  let once := start 0 scenario_stopped (env scenario) in
  let twice := start 0 once.1 once.2 in
  active scenario_stopped = false
  /\ twice = once
  /\ active twice.1 = true
  /\ (exists h, interval twice.1 = Some h
                /\ intervals twice.2 = intervals (env scenario) ++ [(h, 0%nat)])
  /\ timeouts twice.2
     = timeouts (env scenario)
       ++ (if Z.of_nat (length (rainflakes scenario_stopped)) <? LIMIT (config scenario_stopped)
           then [(0%nat, Z.of_nat (length (rainflakes scenario_stopped)))] else []).
Proof.
  intros once twice.
  destruct (start_twice 0 scenario_stopped (env scenario)) as (H1 & H2 & H3).
  split; [reflexivity|]. split; [exact H1|]. split; [exact H2|]. exact (H3 eq_refl).
Defined.

Lemma clear_empties_and_detaches_witness :
  0%nat ∈ rainflakes scenario_controller
  /\ rainflakes (clear scenario_controller (env scenario)).1 = []
  /\ is_attached 0 (clear scenario_controller (env scenario)).2 = false.
Proof.
  assert (0%nat ∈ rainflakes scenario_controller) as H by now apply list_elem_of_singleton.
  destruct (clear_empties_and_detaches scenario_controller (env scenario)) as (H1 & H2 & _).
  split_and!; [exact H | exact H1 | exact (H2 0%nat H)].
Defined.

Lemma remove_absent_flake_witness :
(7%nat ∉ rainflakes scenario_controller)
  /\ is_attached 7 (remove 7 scenario_controller (env scenario)).2 = false
  /\ rainflakes (remove 7 scenario_controller (env scenario)).1 = []
  /\ is_attached 0 (remove 7 scenario_controller (env scenario)).2 = true.
Proof.
  assert (7%nat ∉ rainflakes scenario_controller) as H.
  { intros Hin. apply list_elem_of_singleton in Hin. discriminate Hin. }
  destruct (remove_absent_flake 7 scenario_controller (env scenario) H) as (H1 & H2 & _).
  destruct (H2 [] 0%nat eq_refl) as [H3 H4].
  split_and!; [exact H | exact H1 | exact H3 | exact H4].
Defined.

Lemma accessors_round_trip_witness :
  let el := {| style_left := "50px"; style_top := "0px";
               style_filter := "blur(0px)"; attached := true |} in
  round_trips integers (Int 42)
  /\ flakes (env scenario) !! 0%nat = Some el
  /\ Any.get_top integers (Any.set_top integers (Int 42) el) = Int 42
  /\ Any.get_left integers (Any.set_left integers (Int 42) el) = Int 42.
Proof.
  intros el.
  assert (round_trips integers (Int 42)) as H by (split; reflexivity).
  split; [exact H|]. split; [reflexivity|].
  exact (accessors_round_trip integers (Int 42) el H).
Defined.

(** * Further properties of the code *)

(** ** class rainflake *)


(** X2: the two position setters touch nothing but their own property of
    their own flake: [top] leaves every [left] alone and [left] every
    [top], neither changes the position of another flake, whether a flake
    is attached, or any timer; on a reference that is no flake they change
    nothing that can be read. *)
Theorem setters_touch_one_property (f g : nat) (v : num) (e : Env) :
  get_left f (set_top g v e) = get_left f e
  /\ get_top f (set_left g v e) = get_top f e
  /\ get_top f (set_top g v e)
     = (if decide (g = f) then (if decide (f < length (flakes e))%nat then v else NaN)
        else get_top f e)
  /\ get_left f (set_left g v e)
     = (if decide (g = f) then (if decide (f < length (flakes e))%nat then v else NaN)
        else get_left f e)
  /\ is_attached f (set_top g v e) = is_attached f e
  /\ is_attached f (set_left g v e) = is_attached f e
  /\ intervals (set_top g v e) = intervals e /\ timeouts (set_top g v e) = timeouts e
  /\ intervals (set_left g v e) = intervals e /\ timeouts (set_left g v e) = timeouts e.
Proof.
  rewrite get_left_set_top, get_top_set_left, is_attached_set_top, is_attached_set_left.
  rewrite (get_top_set_top f g), (get_left_set_left f g).
  split_and!; done.
Qed.

(** ** class Controller *)

Lemma indexOf_first (p : nat) (l1 l2 : list nat) :
  p ∉ l1 -> indexOf p (l1 ++ p :: l2) = Z.of_nat (length l1).
Proof.
  induction l1 as [|a l1 IH]; intros Hn; cbn [app indexOf length].
  - now rewrite Nat.eqb_refl.
  - apply not_elem_of_cons in Hn as [Hne Hn].
    destruct (Nat.eqb_spec a p); [congruence|].
    rewrite (IH Hn). destruct (Z.ltb_spec (Z.of_nat (length l1)) 0); lia.
Qed.

(** X3: [remove(p)] for a flake of the pool takes out its first occurrence
    and keeps the others in order, detaches [p], keeps [p]'s position as it
    was, and touches no other flake. *)
Theorem remove_present_flake (p : nat) (l1 l2 : list nat) (this : Controller) (e : Env) :
  rainflakes this = l1 ++ p :: l2 ->
  p ∉ l1 ->
  rainflakes (remove p this e).1 = l1 ++ l2
  /\ is_attached p (remove p this e).2 = false
  /\ get_left p (remove p this e).2 = get_left p e
  /\ get_top p (remove p this e).2 = get_top p e
  /\ (forall q, q <> p -> flakes (remove p this e).2 !! q = flakes e !! q).
Proof.
  intros Hl Hn. cbn [remove fst snd rainflakes set_rainflakes].
  rewrite Hl, (indexOf_first p l1 l2 Hn), splice_at.
  rewrite is_attached_element_remove, get_left_element_remove, get_top_element_remove.
  rewrite decide_True by done. split_and!; try done.
  intros q Hq. cbn. now apply list_lookup_alter_ne.
Qed.

(** X4: [spawn()] appends exactly one new flake to the pool, whatever the
    pool's size and the limit: attached, at [top = 0] and at the [left]
    that [Math.random() * document.width] gave; it draws one random number,
    leaves every older flake as it was and registers no timer. *)
Theorem spawn_appends_a_fresh_flake (this : Controller) (e : Env) :
  let n := length (flakes e) in
  let r := spawn this e in
  rainflakes r.1 = rainflakes this ++ [n]
  /\ is_attached n r.2 = true
  /\ get_top n r.2 = Int 0
  /\ get_left n r.2 = random e (draws e) (width (document this))
  /\ draws r.2 = S (draws e)
  /\ (forall f el, flakes e !! f = Some el -> flakes r.2 !! f = Some el)
  /\ config r.1 = config this /\ document r.1 = document this
  /\ active r.1 = active this /\ interval r.1 = interval this
  /\ intervals r.2 = intervals e /\ timeouts r.2 = timeouts e.
Proof.
  cbn zeta. destruct (spawn_new this e) as [Ha Ht]. split_and!; try done.
  - unfold get_left. cbn. rewrite list_lookup_middle by done. cbn. apply unpx_px.
  - intros f el Hf. rewrite spawn_old; [done | now apply lookup_lt_Some in Hf].
Qed.

(** X5: a tick never changes the size of the pool, nor the controller's
    configuration, viewport snapshot, [active] flag or interval handle, nor
    the registered timers: each removal is paired with one spawn. *)
Theorem animate_keeps_pool_size (this : Controller) (e : Env) :
  let r := animate this e in
  length (rainflakes r.1) = length (rainflakes this)
  /\ config r.1 = config this /\ document r.1 = document this
  /\ active r.1 = active this /\ interval r.1 = interval this
  /\ intervals r.2 = intervals e /\ timeouts r.2 = timeouts e
  /\ next_timer r.2 = next_timer e.
Proof.
  cbn zeta. unfold animate. split; [apply animate_from_length|].
  apply animate_from_fields.
Qed.

(** X6: the loop of [animate] ends although its body splices and pushes the
    array it iterates: after as many steps as the pool has flakes the
    iterator is past the end of the array, so that further steps change
    nothing. *)
Theorem animate_loop_ends (this : Controller) (e : Env) (extra : nat) :
  animate_from (length (rainflakes this) + extra) 0 this e = animate this e
  /\ rainflakes (animate this e).1 !! length (rainflakes this) = None.
Proof.
  split.
  - unfold animate. apply animate_from_enough. lia.
  - apply lookup_ge_None. unfold animate. now rewrite animate_from_length.
Qed.

Lemma fall_local (f : nat) (this : Controller) (e e1 : Env) :
  flakes e1 !! f = flakes e !! f ->
  flakes (fall f this e1) !! f = flakes (fall f this e) !! f.
Proof.
  intros H. unfold fall, set_top, get_top. cbn [flakes set_flakes].
  now rewrite !list_lookup_alter_eq, H.
Qed.

Lemma animate_from_inside (fuel index : nat) (this : Controller) (e : Env) :
  NoDup (rainflakes this) ->
  (forall j f, (index <= j)%nat -> rainflakes this !! j = Some f ->
     is_attached f e = true /\ box_out (document this) f (fall f this e) = false) ->
  (animate_from fuel index this e).1 = this
  /\ forall j f, rainflakes this !! j = Some f ->
       flakes (animate_from fuel index this e).2 !! f
       = if decide (index <= j < index + fuel)%nat
         then flakes (fall f this e) !! f else flakes e !! f.
Proof.
  intros Hnd. revert index e. induction fuel as [|fuel IH]; intros index e Hin.
  { cbn. split; [done|]. intros j f _. rewrite decide_False by lia. done. }
  cbn [animate_from]. destruct (rainflakes this !! index) as [flake|] eqn:Hlk.
  2:{ cbn. split; [done|]. intros j f Hj. apply lookup_lt_Some in Hj.
      apply lookup_ge_None in Hlk. rewrite decide_False by lia. done. }
  destruct (Hin index flake (Nat.le_refl _) Hlk) as [Ha Hb].
  rewrite (animate_flake_inside flake this e Ha Hb).
  assert (forall j f, j <> index -> rainflakes this !! j = Some f ->
            flakes (fall flake this e) !! f = flakes e !! f) as Hother.
  { intros j f Hj Hf. unfold fall. cbn. apply list_lookup_alter_ne.
    intros ->. apply Hj. eapply NoDup_lookup; done. }
  destruct (IH (S index) (fall flake this e)) as [H1 H2].
  { intros j f Hj Hf. destruct (Hin j f) as [Ha' Hb']; [lia | done |].
    pose proof (Hother j f ltac:(lia) Hf) as Hsame. split.
    - unfold fall. now rewrite is_attached_set_top.
    - rewrite (box_out_same _ (fall f this e) (fall f this (fall flake this e)));
        [done | now apply fall_local]. }
  split; [done|]. intros j f Hf. rewrite (H2 j f Hf).
  destruct (decide (j = index)) as [-> | Hne].
  - assert (f = flake) as -> by congruence.
    rewrite decide_False by lia. rewrite decide_True by lia. done.
  - pose proof (Hother j f Hne Hf) as Hsame.
    destruct (decide (S index <= j < S index + fuel)%nat).
    + rewrite decide_True by lia. now apply fall_local.
    + rewrite decide_False by lia. done.
Qed.

(** X8: on a tick in which no flake of the pool gets past the margin, the
    pool is left as it is and every flake of it falls by [FALL_RATE],
    keeping its [left] and staying attached. *)
Theorem animate_moves_every_flake_down (this : Controller) (e : Env) :
  pool_ok (rainflakes this) e ->
  (forall f, f ∈ rainflakes this -> box_out (document this) f (fall f this e) = false) ->
  (animate this e).1 = this
  /\ forall f, f ∈ rainflakes this ->
       get_top f (animate this e).2 = nadd (get_top f e) (Int (FALL_RATE (config this)))
       /\ get_left f (animate this e).2 = get_left f e
       /\ is_attached f (animate this e).2 = true.
Proof.
  intros [Hnd Hatt] Hin.
  destruct (animate_from_inside (length (rainflakes this)) 0 this e Hnd) as [H1 H2].
  { intros j f _ Hf. apply list_elem_of_lookup_2 in Hf. auto. }
  split; [exact H1|]. intros f Hf.
  destruct (list_elem_of_lookup_1 _ _ Hf) as [j Hj].
  pose proof (H2 j f Hj) as Hsame. apply lookup_lt_Some in Hj as Hlt.
  rewrite decide_True in Hsame by lia. unfold animate.
  destruct (same_flake _ _ _ Hsame) as (-> & -> & ->).
  pose proof (is_attached_valid _ _ (Hatt f Hf)) as Hv.
  unfold fall. rewrite get_left_set_top, get_top_set_top, is_attached_set_top.
  rewrite !decide_True by done. auto.
Qed.

Lemma animate_flake_before (flake : nat) (this : Controller) (e : Env) (index j f : nat) :
  pool_ok (rainflakes this) e ->
  rainflakes this !! index = Some flake ->
  (j < index)%nat ->
  rainflakes this !! j = Some f ->
  rainflakes (animate_flake flake this e).1 !! j = Some f
  /\ flakes (animate_flake flake this e).2 !! f = flakes e !! f.
Proof.
  intros [Hnd Hatt] Hi Hj Hf.
  assert (f <> flake) as Hne.
  { intros ->. assert (j = index) by (eapply NoDup_lookup; done). lia. }
  split.
  2:{ apply animate_flake_frame; [done|].
      apply is_attached_valid, Hatt. eapply list_elem_of_lookup_2, Hf. }
  destruct (animate_flake_cases flake this e) as [[_ ->] | [_ ->]]; [done|].
  rewrite spawn_pool. cbn [remove fst rainflakes set_rainflakes].
  destruct (indexOf_split flake (rainflakes this)) as (l1 & l2 & Hl & Hn & ->).
  { eapply list_elem_of_lookup_2, Hi. }
  assert (length l1 = index) as Hlen.
  { eapply NoDup_lookup; [exact Hnd | | exact Hi].
    rewrite Hl. now apply list_lookup_middle. }
  rewrite Hl, splice_at. rewrite Hl in Hf.
  rewrite lookup_app_l in Hf by lia.
  rewrite lookup_app_l by (rewrite length_app; lia).
  now rewrite lookup_app_l by lia.
Qed.

Lemma animate_from_before (fuel index : nat) (this : Controller) (e : Env) (j f : nat) :
  pool_ok (rainflakes this) e ->
  (j < index)%nat ->
  rainflakes this !! j = Some f ->
  rainflakes (animate_from fuel index this e).1 !! j = Some f
  /\ flakes (animate_from fuel index this e).2 !! f = flakes e !! f.
Proof.
  revert index this e. induction fuel as [|fuel IH]; intros index this e Hok Hj Hf; [done|].
  cbn [animate_from]. destruct (rainflakes this !! index) as [flake|] eqn:Hlk; [|done].
  destruct (animate_flake_before flake this e index j f Hok Hlk Hj Hf) as [H1 H2].
  destruct (animate_flake_ok flake this e Hok) as (Hok1 & _);
    [eapply list_elem_of_lookup_2, Hlk|].
  destruct (animate_flake flake this e) as [this1 e1]. cbn [fst snd] in *.
  destruct (IH (S index) this1 e1 Hok1 ltac:(lia) H1) as [H3 H4].
  split; [done | congruence].
Qed.

(** X9: when the loop of [animate] removes the flake at the iterator's
    position, the flake that followed it moves into that position and is
    not visited on this tick: at the end of the tick it is still in the
    pool, there, and its element is as it was. *)
Theorem animate_skips_the_flake_after_a_removed_one
    (fuel index : nat) (this : Controller) (e : Env) (a b : nat) :
  pool_ok (rainflakes this) e ->
  rainflakes this !! index = Some a ->
  rainflakes this !! S index = Some b ->
  box_out (document this) a (fall a this e) = true ->
  let r := animate_from (S fuel) index this e in
  rainflakes r.1 !! index = Some b
  /\ flakes r.2 !! b = flakes e !! b
  /\ (a ∉ rainflakes r.1).
Proof.
  intros Hok Ha Hb Hout r. subst r. cbn [animate_from]. rewrite Ha.
  pose proof Hok as [Hnd Hatt].
  assert (a ∈ rainflakes this) as Hain by (eapply list_elem_of_lookup_2, Ha).
  assert (b <> a) as Hne.
  { intros ->. assert (S index = index) by (eapply NoDup_lookup; done). lia. }
  destruct (animate_flake_ok a this e Hok Hain) as (Hok1 & _ & Hiff & _).
  pose proof (proj2 Hiff Hout) as Hgone.
  assert (rainflakes (animate_flake a this e).1 !! index = Some b) as Hpos.
  { rewrite (animate_flake_outside a this e (Hatt a Hain) Hout), spawn_pool.
    cbn [remove fst rainflakes set_rainflakes].
    destruct (indexOf_split a (rainflakes this) Hain) as (l1 & l2 & Hl & Hn & ->).
    assert (length l1 = index) as Hlen.
    { eapply NoDup_lookup; [exact Hnd | | exact Ha]. rewrite Hl. now apply list_lookup_middle. }
    rewrite Hl, splice_at. rewrite Hl in Hb.
    rewrite lookup_app_r in Hb by lia.
    replace (S index - length l1)%nat with 1%nat in Hb by lia. cbn in Hb.
    rewrite lookup_app_l by (rewrite length_app; apply lookup_lt_Some in Hb; lia).
    rewrite lookup_app_r by lia. now replace (index - length l1)%nat with 0%nat by lia. }
  assert (flakes (animate_flake a this e).2 !! b = flakes e !! b) as Hfr.
  { apply animate_flake_frame; [done|].
    apply is_attached_valid, Hatt. eapply list_elem_of_lookup_2, Hb. }
  pose proof (is_attached_valid _ _ (Hatt a Hain)) as Hva.
  pose proof (animate_flake_grows a this e) as Hgr.
  destruct (animate_flake a this e) as [this1 e1]. cbn [fst snd] in *.
  destruct (animate_from_before fuel (S index) this1 e1 index b Hok1 ltac:(lia) Hpos)
    as [H1 H2].
  destruct (animate_from_frame fuel (S index) this1 e1 a Hgone ltac:(lia)) as (_ & H3 & _).
  split_and!; [done | congruence | done].
Qed.

(** ** Timers *)

Lemma steady_fire (n k : nat) (t : timer) (w : World) :
  (exists this, controllers w !! k = Some this
                /\ length (rainflakes this) = n /\ pending k (timeouts (env w)) = []) ->
  exists this, controllers (fire t w) !! k = Some this
               /\ length (rainflakes this) = n /\ pending k (timeouts (env (fire t w))) = [].
Proof.
  intros (this & Hk & Hn & Hp). destruct t as [m | m]; cbn [fire].
  - destruct (intervals (env w) !! m) as [[h k']|]; [|by exists this].
    rewrite invoke_lookup, invoke_env.
    destruct (controllers w !! k') as [this'|] eqn:Hk'; [|by exists this].
    pose proof (animate_from_fields (length (rainflakes this')) 0 this' (env w))
      as (_ & _ & _ & _ & _ & Ht & _).
    fold (animate this' (env w)) in Ht. rewrite Ht. case_decide as Hkk; [|by exists this].
    subst k'. assert (this' = this) as -> by congruence.
    eexists. split; [done|]. split; [|done].
    unfold animate. now rewrite animate_from_length.
  - destruct (timeouts (env w) !! m) as [[k' i]|] eqn:Hm; [|by exists this].
    assert (k' <> k) as Hne.
    { intros ->. now apply pending_none in Hm. }
    rewrite invoke_lookup, invoke_env. cbn [controllers env].
    pose proof (pending_delete_other k k' i m _ Hm Hne) as Hdel.
    destruct (controllers w !! k') as [this'|] eqn:Hk'.
    + rewrite decide_False by done. exists this. split_and!; [done..|].
      destruct (generate_resume_spec k' i this'
                  (set_timeouts (delete m (timeouts (env w))) (env w))) as [Hoff Hon].
      destruct (active this') eqn:Ha'.
      * destruct (Hon eq_refl) as (_ & _ & _ & ->). cbn [timeouts set_timeouts].
        unfold pending in *. rewrite filter_app, Hdel, Hp.
        destruct (i + 1 <? LIMIT (config this')); cbv iota;
          [now rewrite filter_cons_False | done].
      * rewrite (Hoff eq_refl). cbn [fst snd timeouts set_timeouts]. now rewrite Hdel.
    + exists this. split_and!; [done..|]. cbn [timeouts set_timeouts]. now rewrite Hdel.
Qed.

(** X10: while no [generate] is waiting for a controller, no timer coming
    due changes the size of its pool, whatever comes due and in which
    order, on this controller or on the others; in particular a pool that
    [clear()] has emptied stays empty. *)
Theorem pool_size_is_steady (w : World) (k : nat) (this : Controller) (ts : list timer) :
  controllers w !! k = Some this ->
  pending k (timeouts (env w)) = [] ->
  exists this', controllers (elapse ts w) !! k = Some this'
    /\ length (rainflakes this') = length (rainflakes this)
    /\ pending k (timeouts (env (elapse ts w))) = [].
Proof.
  intros Hk Hp.
  assert (exists this0, controllers w !! k = Some this0
            /\ length (rainflakes this0) = length (rainflakes this)
            /\ pending k (timeouts (env w)) = []) as H by eauto.
  clear Hk Hp. revert w H. induction ts as [|t ts IH]; intros w H; [exact H|].
  cbn. apply IH. now apply steady_fire.
Qed.

Lemma filling_step (cfg : CONFIG) (k : nat) (w : World) (this : Controller) :
  filling cfg k w ->
  controllers w !! k = Some this ->
  Z.of_nat (length (rainflakes this)) < LIMIT cfg ->
  exists n this', controllers (fire (Delay n) w) !! k = Some this'
    /\ length (rainflakes this') = S (length (rainflakes this))
    /\ filling cfg k (fire (Delay n) w).
Proof.
  intros Hfill Hk Hlt. pose proof Hfill as (this0 & Hk0 & _ & Hact & _ & Hpend).
  assert (this0 = this) as -> by congruence.
  destruct (Z.ltb_spec (Z.of_nat (length (rainflakes this))) (LIMIT cfg)) as [_|]; [|lia].
  assert ((k, Z.of_nat (length (rainflakes this))) ∈ timeouts (env w)) as Hin.
  { assert ((k, Z.of_nat (length (rainflakes this))) ∈ pending k (timeouts (env w))) as H
      by (rewrite Hpend; apply list_elem_of_singleton; done).
    now apply list_elem_of_filter in H as [_ H]. }
  destruct (list_elem_of_lookup_1 _ _ Hin) as [n Hn].
  exists n. pose proof (filling_fire cfg k (Delay n) w Hfill) as Hfill'.
  cbn [fire] in *. rewrite Hn in *.
  rewrite invoke_lookup. cbn [controllers env]. rewrite Hk, decide_True by done.
  eexists. split; [done|]. split; [|done].
  destruct (generate_resume_spec k (Z.of_nat (length (rainflakes this))) this
              (set_timeouts (delete n (timeouts (env w))) (env w))) as [_ Hon].
  destruct (Hon Hact) as (-> & _). rewrite spawn_pool, length_app. cbn. lia.
Qed.

Lemma filling_completes (cfg : CONFIG) (k d : nat) (w : World) (this : Controller) :
  filling cfg k w ->
  controllers w !! k = Some this ->
  Z.to_nat (LIMIT cfg - Z.of_nat (length (rainflakes this))) = d ->
  exists ts this', Forall (fun t => exists n, t = Delay n) ts
    /\ length ts = d
    /\ controllers (elapse ts w) !! k = Some this'
    /\ Z.of_nat (length (rainflakes this')) = LIMIT cfg
    /\ active this' = true
    /\ pending k (timeouts (env (elapse ts w))) = [].
Proof.
  revert w this. induction d as [|d IH]; intros w this Hfill Hk Hd.
  - destruct Hfill as (this0 & Hk0 & _ & Hact & Hle & Hpend).
    assert (this0 = this) as -> by congruence.
    exists [], this. cbn [elapse foldl length].
    destruct (Z.ltb_spec (Z.of_nat (length (rainflakes this))) (LIMIT cfg)); [lia|].
    split_and!; [constructor | done | done | lia | done | done].
  - destruct (filling_step cfg k w this Hfill Hk ltac:(lia)) as (n & this1 & Hk1 & Hlen & Hfill1).
    destruct (IH (fire (Delay n) w) this1 Hfill1 Hk1) as (ts & this' & Hall & Hts & H); [lia|].
    exists (Delay n :: ts), this'. cbn [length].
    split_and!; [constructor; eauto | lia | apply H ..].
Qed.

(** X11: a [generate] that was launched from a pool within the limit does
    fill the pool: letting its delays pass, one for each missing flake and
    no other timer, leaves exactly [LIMIT] flakes in the pool and no
    [generate] waiting. *)
Theorem generate_fills_the_pool (cfg : CONFIG) (k : nat) (w : World) :
  launched cfg k w ->
  exists ts this, Forall (fun t => exists n, t = Delay n) ts
    /\ controllers (elapse ts w) !! k = Some this
    /\ Z.of_nat (length (rainflakes this)) = LIMIT cfg
    /\ active this = true
    /\ pending k (timeouts (env (elapse ts w))) = [].
Proof.
  intros Hl.
  assert (filling cfg k w) as Hfill.
  { destruct Hl; [now apply main_filling | now apply filling_start]. }
  pose proof Hfill as (this & Hk & _).
  destruct (filling_completes cfg k _ w this Hfill Hk eq_refl)
    as (ts & this' & Hall & _ & H).
  eauto.
Qed.

(** ** [command] on every controller *)

Lemma invoke_keeps_length (op : nat -> Controller -> Env -> Controller * Env) (k : nat) (w : World) :
  length (controllers (invoke op k w)) = length (controllers w).
Proof.
  unfold invoke. destruct (controllers w !! k) as [this|]; [|done].
  destruct (op k this (env w)). cbn. apply length_insert.
Qed.

Lemma clear_all (ks : list nat) (w : World) :
  let w' := foldl (fun w k => invoke (fun _ => clear) k w) w ks in
  length (controllers w') = length (controllers w)
  /\ (forall k this, controllers w !! k = Some this ->
        controllers w' !! k = Some (if decide (k ∈ ks) then set_rainflakes [] this else this))
  /\ (forall f, is_attached f (env w) = false -> is_attached f (env w') = false)
  /\ (forall k this f, k ∈ ks -> controllers w !! k = Some this -> f ∈ rainflakes this ->
        is_attached f (env w') = false).
Proof.
  revert w. induction ks as [|k0 ks IH]; intros w; cbn [foldl].
  { split_and!; [done | | done |].
    - intros k this Hk. now rewrite decide_False by apply not_elem_of_nil.
    - intros k this f Hk. list_mem. }
  set (w1 := invoke (fun _ => clear) k0 w).
  assert (forall k this, controllers w !! k = Some this ->
            controllers w1 !! k = Some (if decide (k0 = k) then set_rainflakes [] this else this))
    as Hctl.
  { intros k this Hk. subst w1. rewrite invoke_lookup.
    destruct (controllers w !! k0) as [this0|] eqn:Hk0.
    - case_decide; [|done]. subst k. now assert (this0 = this) as -> by congruence.
    - case_decide; [congruence | done]. }
  assert (forall f, is_attached f (env w1)
                    = match controllers w !! k0 with
                      | Some this0 => if decide (f ∈ rainflakes this0) then false
                                      else is_attached f (env w)
                      | None => is_attached f (env w)
                      end) as Hatt.
  { intros f. subst w1. rewrite invoke_env.
    destruct (controllers w !! k0) as [this0|]; [|done].
    cbn [clear snd]. apply is_attached_detach_all. }
  destruct (IH w1) as (H1 & H2 & H3 & H4). cbn zeta. split_and!.
  - rewrite H1. apply invoke_keeps_length.
  - intros k this Hk. rewrite (H2 k _ (Hctl k this Hk)).
    destruct (decide (k ∈ ks)), (decide (k0 = k)) as [->|];
      (rewrite decide_True by list_mem) || (rewrite decide_False by list_mem); done.
  - intros f Hf. apply H3. rewrite Hatt.
    destruct (controllers w !! k0); [case_decide|]; done.
  - intros k this f Hk Hlk Hf. destruct (decide (k = k0)) as [-> | Hne].
    + apply H3. rewrite Hatt, Hlk. now rewrite decide_True.
    + apply (H4 k (if decide (k0 = k) then set_rainflakes [] this else this) f).
      * list_mem.
      * now apply Hctl.
      * now rewrite decide_False by done.
Qed.

(** X12: [command("clear")] on a page with controllers does not throw and
    empties every pool: each controller is left as it was but for its pool,
    and every flake that was in some pool is detached. *)
Theorem command_clear_empties_every_pool (w : World) (first : Controller) :
  controllers w !! 0%nat = Some first ->
  exists w', command "clear" w = Normal w'
    /\ length (controllers w') = length (controllers w)
    /\ (forall k this, controllers w !! k = Some this ->
          controllers w' !! k = Some (set_rainflakes [] this))
    /\ (forall k this f, controllers w !! k = Some this -> f ∈ rainflakes this ->
          is_attached f (env w') = false).
Proof.
  intros Hf. destruct (command_documented w first Hf) as (_ & _ & _ & ->).
  eexists. split; [done|].
  destruct (clear_all (seq 0 (length (controllers w))) w) as (H1 & H2 & _ & H4).
  assert (forall k this, controllers w !! k = Some this ->
            k ∈ seq 0 (length (controllers w))) as Hseq.
  { intros k this Hk. apply elem_of_seq. apply lookup_lt_Some in Hk. lia. }
  split_and!; [done | |].
  - intros k this Hk. rewrite (H2 k this Hk). now rewrite decide_True by apply (Hseq k this Hk).
  - intros k this f Hk Hin. exact (H4 k this f (Hseq k this Hk) Hk Hin).
Qed.

Lemma frozen_fire (t : timer) (w : World) :
  frozen w ->
  frozen (fire t w)
  /\ controllers (fire t w) = controllers w
  /\ flakes (env (fire t w)) = flakes (env w).
Proof.
  intros [Hi Hoff]. destruct t as [n | n]; cbn [fire].
  - rewrite Hi. cbn. split_and!; [split|..]; done.
  - destruct (timeouts (env w) !! n) as [[k i]|]; [|split_and!; [split|..]; done].
    unfold invoke. cbn [controllers env].
    destruct (controllers w !! k) as [this|] eqn:Hk; [|split_and!; [split|..]; done].
    destruct (generate_resume_spec k i this (set_timeouts (delete n (timeouts (env w))) (env w)))
      as [Hidle _].
    rewrite (Hidle (Hoff k this Hk)). cbn [controllers env].
    rewrite list_insert_id by done. split_and!; [split|..]; done.
Qed.

Lemma frozen_elapse (ts : list timer) (w : World) :
  frozen w ->
  controllers (elapse ts w) = controllers w
  /\ flakes (env (elapse ts w)) = flakes (env w).
Proof.
  revert w. induction ts as [|t ts IH]; intros w Hfz; [done|].
  cbn [elapse foldl]. destruct (frozen_fire t w Hfz) as (Hfz1 & Hc & Hfl).
  destruct (IH _ Hfz1) as [H1 H2]. unfold elapse in H1, H2. split; congruence.
Qed.

Lemma stop_all (ks : list nat) (w : World) :
  let w' := foldl (fun w k => invoke (fun _ => stop) k w) w ks in
  flakes (env w') = flakes (env w)
  /\ timeouts (env w') = timeouts (env w)
  /\ (forall k this, controllers w !! k = Some this ->
        controllers w' !! k
        = Some (if decide (k ∈ ks) then set_interval None (set_active false this) else this))
  /\ length (controllers w') = length (controllers w).
Proof.
  revert w. induction ks as [|k0 ks IH]; intros w; cbn [foldl].
  { split_and!; [done | done | | done].
    intros k this Hk. now rewrite decide_False by apply not_elem_of_nil. }
  set (w1 := invoke (fun _ => stop) k0 w).
  assert (flakes (env w1) = flakes (env w) /\ timeouts (env w1) = timeouts (env w)) as [Hf Ht].
  { subst w1. rewrite invoke_env. destruct (controllers w !! k0) as [this0|]; [|done].
    cbn. now destruct (interval this0). }
  assert (forall k this, controllers w !! k = Some this ->
            controllers w1 !! k
            = Some (if decide (k0 = k) then set_interval None (set_active false this) else this))
    as Hctl.
  { intros k this Hk. subst w1. rewrite invoke_lookup.
    destruct (controllers w !! k0) as [this0|] eqn:Hk0.
    - case_decide; [|done]. subst k. now assert (this0 = this) as -> by congruence.
    - case_decide; [congruence | done]. }
  destruct (IH w1) as (H1 & H2 & H3 & H4). cbn zeta.
  split_and!; [congruence | congruence | | rewrite H4; apply invoke_keeps_length].
  intros k this Hk. rewrite (H3 k _ (Hctl k this Hk)).
  destruct (decide (k ∈ ks)), (decide (k0 = k)) as [->|];
    (rewrite decide_True by list_mem) || (rewrite decide_False by list_mem); done.
Qed.

Lemma command_stop_with_controllers (w : World) (first : Controller) (ts : list timer) :
  reachable w ->
  controllers w !! 0%nat = Some first ->
  exists w', command "stop" w = Normal w'
    /\ map rainflakes (controllers w') = map rainflakes (controllers w)
    /\ flakes (env w') = flakes (env w)
    /\ intervals (env w') = []
    /\ controllers (elapse ts w') = controllers w'
    /\ flakes (env (elapse ts w')) = flakes (env w').
Proof.
  intros Hreach Hf. destruct (command_documented w first Hf) as (_ & -> & _).
  set (ks := seq 0 (length (controllers w))).
  set (w' := foldl (fun w k => invoke (fun _ => stop) k w) w ks).
  exists w'. split; [done|].
  destruct (stop_all ks w) as (Hfl & _ & Hctl & Hlen). fold w' in Hfl, Hctl, Hlen.
  assert (forall k this, controllers w !! k = Some this -> k ∈ ks) as Hseq.
  { intros k this Hk. apply elem_of_seq. apply lookup_lt_Some in Hk. lia. }
  assert (world_ok w') as Hok.
  { subst w'. generalize ks. generalize (reachable_ok w Hreach). generalize w. clear.
    intros w Hok ks. revert w Hok. induction ks as [|k ks IH]; intros w Hok; [done|].
    cbn. apply IH. now apply stop_ok. }
  assert (frozen w') as Hfz.
  { assert (forall k this, controllers w' !! k = Some this -> active this = false) as Hoff.
    { intros k this Hk.
      destruct (controllers w !! k) as [this0|] eqn:Hk0.
      - rewrite (Hctl k this0 Hk0), decide_True in Hk by apply (Hseq k this0 Hk0).
        now injection Hk as <-.
      - apply lookup_lt_Some in Hk. apply lookup_ge_None in Hk0. lia. }
    split; [|done]. apply elem_of_nil_inv. intros [h k] Hin.
    destruct Hok as (Hreg & _). destruct (Hreg h k Hin) as (this & Hk & Ha & _).
    rewrite (Hoff k this Hk) in Ha. done. }
  destruct (frozen_elapse ts w' Hfz) as [Hc Hfl'].
  split_and!; [ | done | apply Hfz | done | done].
  apply list_eq. intros k. rewrite !list_lookup_fmap.
  destruct (controllers w !! k) as [this0|] eqn:Hk0.
  - now rewrite (Hctl k this0 Hk0), decide_True by apply (Hseq k this0 Hk0).
  - apply lookup_ge_None in Hk0. rewrite <- Hlen in Hk0.
    apply lookup_ge_None in Hk0. now rewrite Hk0.
Qed.

(** X13: [command("stop")] on a page the script can reach halts the whole
    page: with a controller on the page it does not throw, with none (an
    empty configuration) it throws on [controllers[0][cmd]] and changes
    nothing; either way every pool and every element is kept, no interval
    is left registered, and from then on no timer coming due changes any
    controller or any element. *)
Theorem command_stop_freezes_the_page (w : World) (ts : list timer) :
  reachable w ->
  let w' := after (command "stop" w) in
  command "stop" w = match controllers w with
                     | [] => TypeError w
                     | _ :: _ => Normal w'
                     end
  /\ map rainflakes (controllers w') = map rainflakes (controllers w)
  /\ flakes (env w') = flakes (env w)
  /\ intervals (env w') = []
  /\ controllers (elapse ts w') = controllers w'
  /\ flakes (env (elapse ts w')) = flakes (env w').
Proof.
  intros Hreach. cbn zeta. destruct (controllers w) as [|first cs] eqn:Hcs.
  - assert (command "stop" w = TypeError w) as -> by (unfold command; now rewrite Hcs).
    cbn [after].
    assert (frozen w) as Hfz.
    { split; [|intros k this Hk; now rewrite Hcs in Hk].
      apply elem_of_nil_inv. intros [h k] Hin.
      destruct (reachable_ok w Hreach) as (Hreg & _).
      destruct (Hreg h k Hin) as (this & Hk & _). now rewrite Hcs in Hk. }
    destruct (frozen_elapse ts w Hfz) as [Hc Hfl].
    split_and!; [done | by rewrite Hcs | done | apply Hfz | done | done].
  - destruct (command_stop_with_controllers w first ts Hreach) as (w' & -> & H);
      [now rewrite Hcs|].
    cbn [after]. rewrite <- Hcs. split; [done | exact H].
Qed.

(** ** The resize listener and [main] *)

Lemma resize_all (ks : list nat) (w : World) (k : nat) (this : Controller) (f : nat)
    (clientWidth clientHeight : num) :
  world_ok w -> NoDup ks ->
  controllers w !! k = Some this ->
  f ∈ rainflakes this ->
  let w' := foldl (fun w k => invoke (fun _ => resize clientWidth clientHeight) k w) w ks in
  controllers w' !! k
  = Some (if decide (k ∈ ks)
          then set_document {| width := clientWidth; height := clientHeight |} this else this)
  /\ get_left f (env w')
     = (if decide (k ∈ ks)
        then nadd (get_left f (env w)) (nsub clientWidth (width (document this)))
        else get_left f (env w))
  /\ get_top f (env w')
     = (if decide (k ∈ ks)
        then nadd (get_top f (env w)) (nsub clientHeight (height (document this)))
        else get_top f (env w)).
Proof.
  intros Hok Hnd. revert w this Hok. induction Hnd as [|k0 ks Hk0 Hnd IH];
    intros w this Hok Hk Hf; cbn [foldl].
  { rewrite !decide_False by apply not_elem_of_nil. done. }
  set (w1 := invoke (fun _ => resize clientWidth clientHeight) k0 w).
  assert (world_ok w1) as Hok1 by (apply invoke_ok; auto with footprint).
  pose proof Hok as (_ & Hpools & Hdisj).
  destruct (decide (k0 = k)) as [-> | Hne].
  - assert (controllers w1 !! k
            = Some (set_document {| width := clientWidth; height := clientHeight |} this)) as Hk1.
    { subst w1. rewrite invoke_lookup, Hk. now rewrite decide_True. }
    destruct (IH w1 _ Hok1 Hk1 Hf) as (-> & -> & ->).
    rewrite !(decide_False (P := k ∈ ks)) by done.
    rewrite !decide_True by list_mem. split; [done|].
    subst w1. rewrite invoke_env, Hk. unfold resize. cbn [snd].
    change (foldl _ (env w) (rainflakes this))
      with (foldl (shift (nsub clientWidth (width (document this)))
                         (nsub clientHeight (height (document this))))
                  (env w) (rainflakes this)).
    destruct (Hpools k this Hk) as [Hndp _].
    destruct (shift_all (nsub clientWidth (width (document this)))
                (nsub clientHeight (height (document this)))
                (rainflakes this) (env w) f Hndp) as [-> ->].
    now rewrite !decide_True by done.
  - assert (controllers w1 !! k = Some this) as Hk1.
    { subst w1. rewrite invoke_lookup.
      destruct (controllers w !! k0); [now rewrite decide_False | done]. }
    assert (flakes (env w1) !! f = flakes (env w) !! f) as Hsame.
    { subst w1. rewrite invoke_env.
      destruct (controllers w !! k0) as [this0|] eqn:Hlk0; [|done].
      destruct (tidy_resize clientWidth clientHeight this0 (env w)) as (_ & _ & Hframe & _).
      apply Hframe.
      - destruct (Hpools k this Hk) as [_ Hatt]. now apply is_attached_valid, Hatt.
      - now apply (Hdisj k k0 this this0). }
    destruct (IH w1 _ Hok1 Hk1 Hf) as (-> & -> & ->).
    destruct (same_flake _ _ _ Hsame) as (-> & -> & _).
    destruct (decide (k ∈ ks));
      (rewrite !decide_True by list_mem) || (rewrite !decide_False by list_mem); done.
Qed.

(** X14: the resize listener reaches every controller: on a page the script
    can reach, each controller's snapshot becomes the new client size and
    each pooled flake is shifted once, by the difference between the new
    size and its own controller's old snapshot; the pools are kept. *)
Theorem on_resize_shifts_every_layer (w : World) (k : nat) (this : Controller) (f : nat)
    (clientWidth clientHeight : num) :
  reachable w ->
  controllers w !! k = Some this ->
  f ∈ rainflakes this ->
  let w' := on_resize clientWidth clientHeight w in
  controllers w' !! k
  = Some (set_document {| width := clientWidth; height := clientHeight |} this)
  /\ get_left f (env w') = nadd (get_left f (env w)) (nsub clientWidth (width (document this)))
  /\ get_top f (env w') = nadd (get_top f (env w)) (nsub clientHeight (height (document this))).
Proof.
  intros Hreach Hk Hf. cbn zeta. unfold on_resize.
  destruct (resize_all (seq 0 (length (controllers w))) w k this f clientWidth clientHeight)
    as (-> & -> & ->); [now apply reachable_ok | apply NoDup_seq | done | done |].
  assert (k ∈ seq 0 (length (controllers w))) as Hin.
  { apply elem_of_seq. apply lookup_lt_Some in Hk. lia. }
  now rewrite !decide_True by done.
Qed.

Lemma started_new_Controller (layer layer' : CONFIG) (doc doc' : Document) (k : nat) (w : World) :
  started layer doc k w -> started layer doc k (new_Controller layer' doc' w).
Proof.
  intros (this & h & Hk & Hrest). unfold new_Controller, started.
  set (this0 := {| config := layer'; rainflakes := []; document := doc';
                   active := false; interval := None |}).
  destruct (start_spec (length (controllers w)) this0 (env w) eq_refl)
    as (_ & _ & _ & _ & _ & (h0 & _ & Hi) & _).
  destruct (start (length (controllers w)) this0 (env w)) as [this1 e1].
  cbn [fst snd controllers env] in *. exists this, h.
  rewrite lookup_app_l by (now apply lookup_lt_Some in Hk). rewrite Hi.
  destruct Hrest as (? & ? & ? & ? & ? & ?). split_and!; [done..|]. list_mem.
Qed.

Lemma new_Controller_started (layer : CONFIG) (doc : Document) (w : World) :
  started layer doc (length (controllers w)) (new_Controller layer doc w)
  /\ length (controllers (new_Controller layer doc w)) = S (length (controllers w))
  /\ flakes (env (new_Controller layer doc w)) = flakes (env w).
Proof.
  unfold new_Controller, started.
  set (this0 := {| config := layer; rainflakes := []; document := doc;
                   active := false; interval := None |}).
  destruct (start_spec (length (controllers w)) this0 (env w) eq_refl)
    as (Hp & Hc & Hd & Ha & Hf & (h0 & Hi & Hin) & _).
  destruct (start (length (controllers w)) this0 (env w)) as [this1 e1].
  cbn [fst snd controllers env] in *. split_and!.
  - exists this1, h0. rewrite list_lookup_middle by done. rewrite Hin.
    split_and!; [done..|]. list_mem.
  - rewrite length_app. cbn. lia.
  - done.
Qed.

(** X15: [main] builds one controller for each layer of the configuration,
    in order: configured with its layer and the client size, running, with
    its interval registered and an empty pool; no flake exists yet when
    [main] returns. *)
Theorem main_builds_one_controller_per_layer
    (layers : list CONFIG) (doc : Document) (rnd : nat -> num -> num) :
  length (controllers (main layers doc rnd)) = length layers
  /\ flakes (env (main layers doc rnd)) = []
  /\ forall k layer, layers !! k = Some layer -> started layer doc k (main layers doc rnd).
Proof.
  unfold main.
  assert (forall ls w,
            let w' := foldl (fun w layer => new_Controller layer doc w) w ls in
            length (controllers w') = (length (controllers w) + length ls)%nat
            /\ flakes (env w') = flakes (env w)
            /\ (forall k layer, started layer doc k w -> started layer doc k w')
            /\ (forall k layer, ls !! k = Some layer ->
                  started layer doc (length (controllers w) + k) w')) as Hgen.
  { induction ls as [|l ls IH]; intros w; cbn [foldl length].
    { split_and!; [lia | done | done | done]. }
    destruct (new_Controller_started l doc w) as (Hs & Hlen & Hfl).
    destruct (IH (new_Controller l doc w)) as (H1 & H2 & H3 & H4). cbn zeta.
    split_and!; [lia | congruence | |].
    - intros k layer Hst. now apply H3, started_new_Controller.
    - intros [|k] layer Hk; cbn in Hk.
      + injection Hk as <-. rewrite Nat.add_0_r. now apply H3.
      + rewrite Hlen in H4. replace (length (controllers w) + S k)%nat
          with (S (length (controllers w)) + k)%nat by lia. now apply H4. }
  destruct (Hgen layers (blank rnd)) as (H1 & H2 & _ & H4). cbn in H1.
  split_and!; [done | done | apply H4].
Qed.

(** ** What the timers never do *)

Lemma settled_refl (e : Env) : settled e e.
Proof. intros f el Hf. by exists el. Qed.

Lemma settled_trans (e1 e2 e3 : Env) : settled e1 e2 -> settled e2 e3 -> settled e1 e3.
Proof.
  intros H12 H23 f el Hf. destruct (H12 f el Hf) as (el2 & Hf2 & Hl2 & Hb2 & Ha2).
  destruct (H23 f el2 Hf2) as (el3 & Hf3 & Hl3 & Hb3 & Ha3).
  exists el3. split_and!; [done | congruence | congruence | auto].
Qed.

Lemma settled_same (e e' : Env) : flakes e' = flakes e -> settled e e'.
Proof. intros Hsame f el Hf. exists el. by rewrite Hsame. Qed.

Lemma settled_set_top (f : nat) (v : num) (e : Env) : settled e (set_top f v e).
Proof.
  intros g el Hg. unfold set_top. cbn [flakes set_flakes].
  destruct (decide (f = g)) as [-> | Hne].
  - rewrite list_lookup_alter_eq, Hg. cbn. eauto.
  - rewrite list_lookup_alter_ne by done. eauto.
Qed.

Lemma settled_element_remove (f : nat) (e : Env) : settled e (element_remove f e).
Proof.
  intros g el Hg. unfold element_remove. cbn [flakes set_flakes].
  destruct (decide (f = g)) as [-> | Hne].
  - rewrite list_lookup_alter_eq, Hg. cbn. eauto.
  - rewrite list_lookup_alter_ne by done. eauto.
Qed.

Lemma settled_spawn (this : Controller) (e : Env) : settled e (spawn this e).2.
Proof.
  intros g el Hg. exists el. split; [|done].
  rewrite spawn_old; [done | now apply lookup_lt_Some in Hg].
Qed.

Lemma settled_animate_flake (flake : nat) (this : Controller) (e : Env) :
  settled e (animate_flake flake this e).2.
Proof.
  destruct (animate_flake_cases flake this e) as [[_ ->] | [_ ->]]; cbn [snd].
  - apply settled_set_top.
  - eapply settled_trans; [apply settled_set_top|].
    eapply settled_trans; [apply settled_element_remove|]. apply settled_spawn.
Qed.

Lemma settled_animate_from (fuel index : nat) (this : Controller) (e : Env) :
  settled e (animate_from fuel index this e).2.
Proof.
  revert index this e. induction fuel as [|fuel IH]; intros index this e;
    [apply settled_refl|].
  cbn [animate_from]. destruct (rainflakes this !! index) as [flake|]; [|apply settled_refl].
  pose proof (settled_animate_flake flake this e) as H1.
  destruct (animate_flake flake this e) as [this1 e1]. cbn [snd] in H1.
  eapply settled_trans; [exact H1 | apply IH].
Qed.

Lemma settled_generate_resume (self : nat) (i : Z) (this : Controller) (e : Env) :
  settled e (generate_resume self i this e).2.
Proof.
  destruct (generate_resume_spec self i this e) as [Hoff Hon].
  destruct (active this).
  - destruct (Hon eq_refl) as (_ & Hfl & _).
    apply (settled_trans _ (spawn this e).2); [apply settled_spawn | apply settled_same, Hfl].
  - rewrite (Hoff eq_refl). apply settled_refl.
Qed.

Lemma settled_fire (t : timer) (w : World) : settled (env w) (env (fire t w)).
Proof.
  destruct t as [n | n]; cbn [fire].
  - destruct (intervals (env w) !! n) as [[h k]|]; [|apply settled_refl].
    rewrite invoke_env. destruct (controllers w !! k) as [this|]; [|apply settled_refl].
    apply settled_animate_from.
  - destruct (timeouts (env w) !! n) as [[k i]|]; [|apply settled_refl].
    rewrite invoke_env. cbn [controllers env].
    destruct (controllers w !! k) as [this|]; [|by apply settled_same].
    eapply settled_trans; [|apply settled_generate_resume]. by apply settled_same.
Qed.

Lemma settled_elapse (ts : list timer) (w : World) : settled (env w) (env (elapse ts w)).
Proof.
  revert w. induction ts as [|t ts IH]; intros w; [apply settled_refl|].
  cbn [elapse foldl]. eapply settled_trans; [apply settled_fire | apply IH].
Qed.

(** X16: no timer ever moves a flake sideways: whatever comes due, in
    whatever order and on whatever page, the [left] of every existing flake
    stays what it was ([SWAY_RATE] is never read), and a flake that
    has been detached is never attached again. *)
Theorem timers_never_move_a_flake_sideways (w : World) (ts : list timer) (f : nat) :
  (f < length (flakes (env w)))%nat ->
  get_left f (env (elapse ts w)) = get_left f (env w)
  /\ (is_attached f (env w) = false -> is_attached f (env (elapse ts w)) = false).
Proof.
  intros Hf. apply lookup_lt_is_Some_2 in Hf as [el Hel].
  destruct (settled_elapse ts w f el Hel) as (el' & Hel' & Hl & _ & Ha).
  unfold get_left, is_attached. rewrite Hel, Hel'. split; [by rewrite Hl | done].
Qed.

(** X17: [command("remove")] finds the method [remove] and calls it without
    an argument: the first controller's pool loses its last flake, whose
    element is left as it is, then [undefined.element] throws, so that no
    other controller is reached. *)
Theorem command_remove_drops_the_last_flake (w : World) (first : Controller) :
  controllers w !! 0%nat = Some first ->
  let pool := take (length (rainflakes first) - 1) (rainflakes first) in
  command "remove" w
  = TypeError {| controllers := <[0%nat := set_rainflakes pool first]> (controllers w);
                 env := env w |}.
Proof.
  intros Hf. cbn zeta. unfold command. rewrite Hf. cbn [get truthy negb].
  destruct (controllers w) as [|c cs] eqn:Hcs; [done|].
  cbn [length seq command_each]. unfold call. rewrite Hcs. cbn [lookup list_lookup].
  injection Hf as ->. change (get first "remove") with (Method m_remove).
  cbn [truthy negb call_method]. unfold invoke. rewrite Hcs.
  cbn [lookup list_lookup]. do 3 f_equal.
  destruct (rainflakes first) as [|a l] eqn:Hl using rev_ind; [done|].
  rewrite splice_last, length_app. cbn [length].
  replace (length l + 1 - 1)%nat with (length l) by lia. now rewrite take_app_length.
Qed.

(** ** One interval for each running controller *)

Lemma NoDup_fst_unique {A B : Type} (l : list (A * B)) (a : A) (b b' : B) :
  NoDup l.*1 -> (a, b) ∈ l -> (a, b') ∈ l -> b = b'.
Proof.
  induction l as [|[x y] l IH]; cbn; intros Hnd H1 H2; [by apply elem_of_nil in H1|].
  apply NoDup_cons in Hnd as [Hx Hnd].
  apply elem_of_cons in H1 as [H1 | H1]; apply elem_of_cons in H2 as [H2 | H2].
  - congruence.
  - injection H1 as -> ->. exfalso. apply Hx.
    apply list_elem_of_fmap. by exists (x, b').
  - injection H2 as -> ->. exfalso. apply Hx.
    apply list_elem_of_fmap. by exists (x, b).
  - by apply IH.
Qed.

Lemma foldl_next_timer (st : Env -> nat -> Env) (l : list nat) (e : Env) :
  (forall e g, next_timer (st e g) = next_timer e) ->
  next_timer (foldl st e l) = next_timer e.
Proof.
  intros Hst. revert e. induction l as [|g l IH]; intros e; [done|].
  cbn. now rewrite IH.
Qed.

Lemma generate_loop_next (self : nat) (i : Z) (this : Controller) (e : Env) :
  (next_timer e <= next_timer (generate_loop self i this e))%nat.
Proof. unfold generate_loop. destruct (i <? LIMIT (config this)); cbn; lia. Qed.

Lemma calm_spawn : calm spawn.
Proof. intros this e. cbn. lia. Qed.

Lemma calm_animate : calm animate.
Proof.
  intros this e.
  pose proof (animate_from_fields (length (rainflakes this)) 0 this e)
    as (_ & _ & _ & _ & _ & _ & Hn).
  unfold animate. cbn zeta in Hn. lia.
Qed.

Lemma calm_clear : calm clear.
Proof. intros this e. cbn [clear snd]. now rewrite foldl_next_timer. Qed.

Lemma calm_resize (width0 height0 : num) : calm (resize width0 height0).
Proof. intros this e. unfold resize. cbn [snd]. now rewrite foldl_next_timer. Qed.

Lemma calm_drop_last :
  calm (fun this e => (set_rainflakes (splice (-1) 1 (rainflakes this)) this, e)).
Proof. intros this e. done. Qed.

Lemma calm_generate (self : nat) : calm (fun this e => (this, generate self this e)).
Proof. intros this e. apply generate_loop_next. Qed.

Lemma calm_generate_resume (self : nat) (i : Z) : calm (generate_resume self i).
Proof.
  intros this e. unfold generate_resume. destruct (active this); cbn [negb snd]; [|done].
  etrans; [|apply generate_loop_next]. cbn. lia.
Qed.

#[local] Hint Resolve calm_spawn calm_animate calm_clear calm_resize calm_drop_last
  calm_generate calm_generate_resume : footprint.

Lemma invoke_timers (op : nat -> Controller -> Env -> Controller * Env) (k : nat) (w : World) :
  quiet (op k) -> calm (op k) -> timers_ok w -> timers_ok (invoke op k w).
Proof.
  intros Hquiet Hcalm (Hnd & Hlt & Hreg & Hctl). unfold timers_ok.
  rewrite invoke_env. setoid_rewrite invoke_lookup.
  destruct (controllers w !! k) as [this|] eqn:Hk; [|done].
  destruct (Hquiet this (env w)) as (Hi & Ha & Hh). pose proof (Hcalm this (env w)) as Hn.
  rewrite Hi. split_and!; [done | | |].
  - intros h k' Hin. apply Hlt in Hin. lia.
  - intros h k' Hin. destruct (Hreg h k' Hin) as (this' & Hk' & Hh').
    case_decide as Hkk; [|eauto]. subst k'. eexists. split; [done|]. congruence.
  - intros k' this' Hk'. case_decide as Hkk; [|by apply Hctl].
    subst k'. injection Hk' as <-. rewrite Hh, Ha. by apply Hctl.
Qed.

Lemma start_handle (self : nat) (this : Controller) (e : Env) :
  active this = false ->
  let r := start self this e in
  exists h, interval r.1 = Some h /\ active r.1 = true
    /\ intervals r.2 = intervals e ++ [(h, self)]
    /\ (next_timer e <= h)%nat /\ next_timer r.2 = S h.
Proof.
  intros Ha. cbn zeta. unfold start. rewrite Ha. cbn [fst snd]. unfold generate.
  set (e1 := generate_loop _ _ _ _).
  exists (next_timer e1). split_and!; [done | done | | | done].
  - cbn. subst e1.
    now destruct (generate_loop_spec self (Z.of_nat (length (rainflakes (set_active true this))))
                    (set_active true this) e) as (_ & -> & _).
  - apply generate_loop_next.
Qed.

Lemma start_timers (k : nat) (w : World) : timers_ok w -> timers_ok (invoke start k w).
Proof.
  intros Hok. destruct (controllers w !! k) as [this|] eqn:Hk;
    [|unfold invoke; now rewrite Hk].
  destruct (active this) eqn:Ha.
  { assert (invoke start k w = w) as ->; [|done].
    unfold invoke, start. rewrite Hk, Ha. rewrite list_insert_id by done. now destruct w. }
  destruct Hok as (Hnd & Hlt & Hreg & Hctl).
  assert (interval this = None) as Hnone.
  { pose proof (Hctl k this Hk) as H. destruct (interval this); [|done].
    destruct H as [H _]. congruence. }
  destruct (start_handle k this (env w) Ha) as (h & Hh & Hact & Hint & Hle & Hnext).
  unfold timers_ok. rewrite invoke_env. setoid_rewrite invoke_lookup. rewrite Hk.
  rewrite Hint, Hnext. split_and!.
  - rewrite fmap_app. apply NoDup_app. split_and!; [done | | apply NoDup_singleton].
    intros h' Hin Hin'. apply list_elem_of_singleton in Hin'. cbn in Hin'. subst h'.
    apply list_elem_of_fmap in Hin as ([h' k'] & Heq & Hin). cbn in Heq. subst h'.
    apply Hlt in Hin. lia.
  - intros h' k' [Hin | Hin]%elem_of_app.
    + apply Hlt in Hin. lia.
    + apply list_elem_of_singleton in Hin. injection Hin as -> ->. lia.
  - intros h' k' [Hin | Hin]%elem_of_app.
    + destruct (Hreg h' k' Hin) as (this' & Hk' & Hh').
      case_decide as Hkk; [|eauto]. subst k'. congruence.
    + apply list_elem_of_singleton in Hin. injection Hin as -> ->.
      rewrite decide_True by done. eauto.
  - intros k' this' Hk'. case_decide as Hkk.
    + subst k'. injection Hk' as <-. rewrite Hh. split; [done | list_mem].
    + pose proof (Hctl k' this' Hk') as H. destruct (interval this'); [|done].
      destruct H as [H1 H2]. split; [done | list_mem].
Qed.

Lemma stop_timers (k : nat) (w : World) :
  timers_ok w -> timers_ok (invoke (fun _ => stop) k w).
Proof.
  intros (Hnd & Hlt & Hreg & Hctl).
  destruct (controllers w !! k) as [this|] eqn:Hk;
    [|unfold invoke; now rewrite Hk].
  unfold timers_ok. rewrite invoke_env. setoid_rewrite invoke_lookup. rewrite Hk.
  cbn [stop fst snd interval set_active set_interval active].
  pose proof (Hctl k this Hk) as Hthis.
  destruct (interval this) as [h0|] eqn:Hh0; cbn [clearInterval].
  - destruct Hthis as [_ Hin0]. cbn [intervals set_intervals next_timer].
    split_and!.
    + eapply sublist_NoDup; [exact Hnd|]. apply fmap_sublist, sublist_filter.
    + intros h k' [_ Hin]%list_elem_of_filter. by apply Hlt in Hin.
    + intros h k' [Hne Hin]%list_elem_of_filter. cbn in Hne.
      destruct (Hreg h k' Hin) as (this' & Hk' & Hh').
      case_decide as Hkk; [|eauto]. subst k'. congruence.
    + intros k' this' Hk'. case_decide as Hkk.
      * subst k'. by injection Hk' as <-.
      * pose proof (Hctl k' this' Hk') as H. destruct (interval this') as [h|]; [|done].
        destruct H as [H1 H2]. split; [done|]. apply list_elem_of_filter. split; [|done].
        cbn. intros ->. apply Hkk. symmetry. eapply NoDup_fst_unique; done.
  - split_and!; [done | done | |].
    + intros h k' Hin. destruct (Hreg h k' Hin) as (this' & Hk' & Hh').
      case_decide as Hkk; [|eauto]. subst k'. congruence.
    + intros k' this' Hk'. case_decide as Hkk; [|by apply Hctl].
      subst k'. by injection Hk' as <-.
Qed.

Lemma fire_timers (t : timer) (w : World) : timers_ok w -> timers_ok (fire t w).
Proof.
  intros Hok. destruct t as [n | n]; cbn [fire].
  - destruct (intervals (env w) !! n) as [[h k]|]; [|done].
    apply (invoke_timers (fun _ => animate)); auto with footprint.
  - destruct (timeouts (env w) !! n) as [[k i]|]; [|done].
    apply (invoke_timers (fun self => generate_resume self i)); auto with footprint.
Qed.

Lemma foldl_invoke_timers (op : nat -> Controller -> Env -> Controller * Env)
    (ks : list nat) (w : World) :
  (forall k w, timers_ok w -> timers_ok (invoke op k w)) ->
  timers_ok w -> timers_ok (foldl (fun w k => invoke op k w) w ks).
Proof.
  intros Hop. revert w. induction ks as [|k ks IH]; intros w Hok; [done|].
  cbn. apply IH. now apply Hop.
Qed.

Lemma call_timers (cmd : string) (k : nat) (w : World) :
  timers_ok w -> timers_ok (after (call cmd k w)).
Proof.
  intros Hok. unfold call. destruct (controllers w !! k) as [this|]; [|done].
  destruct (get this cmd) as [| b | m | []]; try done.
  destruct m; cbn [call_method after];
    solve [ now apply start_timers | now apply stop_timers
          | apply invoke_timers; auto with footprint ].
Qed.

Lemma command_each_timers (cmd : string) (ks : list nat) (w : World) :
  timers_ok w -> timers_ok (after (command_each cmd ks w)).
Proof.
  revert w. induction ks as [|k ks IH]; intros w Hok; [done|].
  cbn. pose proof (call_timers cmd k w Hok) as Hcall.
  destruct (call cmd k w) as [w1 | w1]; [now apply IH | done].
Qed.

Lemma new_Controller_as_start (layer : CONFIG) (doc : Document) (w : World) :
  new_Controller layer doc w
  = invoke start (length (controllers w))
      {| controllers := controllers w
                        ++ [ {| config := layer; rainflakes := []; document := doc;
                                active := false; interval := None |} ];
         env := env w |}.
Proof.
  unfold new_Controller, invoke. cbn [controllers env].
  rewrite list_lookup_middle by done.
  destruct (start _ _ _) as [this1 e1]. f_equal.
  rewrite insert_app_r_alt by done. now rewrite Nat.sub_diag.
Qed.

Lemma new_Controller_timers (layer : CONFIG) (doc : Document) (w : World) :
  timers_ok w -> timers_ok (new_Controller layer doc w).
Proof.
  intros (Hnd & Hlt & Hreg & Hctl). rewrite new_Controller_as_start.
  apply start_timers. split_and!; cbn [controllers env]; [done | done | |].
  - intros h k Hin. destruct (Hreg h k Hin) as (this & Hk & Hh).
    exists this. split; [|done]. rewrite lookup_app_l; [done | now apply lookup_lt_Some in Hk].
  - intros k this [Hk | [_ Hk]]%lookup_app_Some; [by apply Hctl|].
    apply list_lookup_singleton_Some in Hk as [_ <-]. done.
Qed.

Lemma reachable_timers (w : World) : reachable w -> timers_ok w.
Proof.
  induction 1 as [layers doc rnd | t w _ IH | cw ch w _ IH | cmd w _ IH].
  - unfold main.
    assert (timers_ok (blank rnd)) as Hb.
    { split_and!; cbn [blank controllers env intervals next_timer].
      - apply NoDup_nil_2.
      - intros h k Hin. by apply elem_of_nil in Hin.
      - intros h k Hin. by apply elem_of_nil in Hin.
      - intros k this Hk. by rewrite lookup_nil in Hk. }
    revert Hb. generalize (blank rnd).
    induction layers as [|layer layers IHl]; intros w Hok; [done|].
    cbn. apply IHl. now apply new_Controller_timers.
  - now apply fire_timers.
  - unfold on_resize. apply (foldl_invoke_timers (fun _ => resize cw ch)); [|done].
    intros k w0. apply invoke_timers; auto with footprint.
  - unfold command. destruct (controllers w !! 0%nat) as [first|]; [|done].
    destruct (negb _); [done | now apply command_each_timers].
Qed.

(** X18: on every page the script can reach, a controller has exactly one
    interval registered while it is running, the one it remembers in
    [interval], and none while it is stopped: no sequence of commands,
    resizes and timers leaves a second interval behind or loses one. *)
Theorem one_interval_per_running_controller (w : World) (k : nat) (this : Controller) :
  reachable w ->
  controllers w !! k = Some this ->
  filter (fun r => r.2 = k) (intervals (env w))
  = match interval this with
    | Some h => [(h, k)]
    | None => []
    end
  /\ (active this = true <-> is_Some (interval this)).
Proof.
  intros Hreach Hk. destruct (reachable_timers w Hreach) as (Hnd & _ & Hreg & Hctl).
  pose proof (Hctl k this Hk) as Hthis.
  assert (forall r, r ∈ filter (fun r => r.2 = k) (intervals (env w)) ->
            interval this = Some r.1 /\ r.2 = k) as Hall.
  { intros [h k'] [Hk' Hin]%list_elem_of_filter. cbn in Hk'. subst k'.
    destruct (Hreg h k Hin) as (this' & Hk' & Hh). cbn. split; [congruence | done]. }
  assert (NoDup (filter (fun r => r.2 = k) (intervals (env w)))) as Hnd'.
  { apply NoDup_filter. eapply NoDup_fmap_1, Hnd. }
  destruct (interval this) as [h|] eqn:Hh.
  - destruct Hthis as [Ha Hin]. split; [|split; [eauto | done]].
    assert ((h, k) ∈ filter (fun r => r.2 = k) (intervals (env w))) as Hin'
      by (apply list_elem_of_filter; done).
    destruct (filter (fun r => r.2 = k) (intervals (env w))) as [|r1 [|r2 l]].
    + by apply elem_of_nil in Hin'.
    + apply list_elem_of_singleton in Hin'. by subst r1.
    + exfalso. apply NoDup_cons in Hnd' as [Hn _]. apply Hn.
      destruct (Hall r1) as [H1 H1']; [list_mem|].
      destruct (Hall r2) as [H2 H2']; [list_mem|].
      destruct r1, r2. cbn in *. list_mem.
  - split; [|split; [congruence | by intros [? ?]]].
    destruct (filter (fun r => r.2 = k) (intervals (env w))) as [|r1 l]; [done|].
    destruct (Hall r1) as [H1 _]; [list_mem | done].
Qed.

(** ** The further properties at work on sample pages *)

Lemma restarted_late_ok : pool_ok (rainflakes restarted_controller) (env restarted_late).
Proof.
  split.
  - apply (bool_decide_unpack _). vm_compute. exact I.
  - apply Forall_forall. repeat constructor.
Defined.


Lemma remove_present_flake_witness :
  rainflakes restarted_controller = [0%nat] ++ 1%nat :: [2%nat; 3%nat]
  /\ (1%nat ∉ [0%nat])
  /\ rainflakes (remove 1 restarted_controller (env restarted_late)).1 = [0%nat; 2%nat; 3%nat]
  /\ is_attached 1 (remove 1 restarted_controller (env restarted_late)).2 = false
  /\ get_top 1 (remove 1 restarted_controller (env restarted_late)).2 = Int 150.
Proof.
  assert (1%nat ∉ [0%nat]) as Hn.
  { intros Hin. apply list_elem_of_singleton in Hin. discriminate Hin. }
  destruct (remove_present_flake 1 [0%nat] [2%nat; 3%nat] restarted_controller
              (env restarted_late) eq_refl Hn) as (H1 & H2 & _ & H4 & _).
  split_and!; [reflexivity | exact Hn | exact H1 | exact H2 | exact H4].
Defined.

Lemma spawn_appends_a_fresh_flake_witness :
  let r := spawn scenario_controller (env scenario) in
  rainflakes r.1 = [0%nat; 1%nat]
  /\ get_left 1 r.2 = Int 50
  /\ exists el, flakes (env scenario) !! 0%nat = Some el /\ flakes r.2 !! 0%nat = Some el.
Proof.
  destruct (spawn_appends_a_fresh_flake scenario_controller (env scenario))
    as (H1 & _ & _ & H4 & _ & H6 & _).
  split_and!; [exact H1 | exact H4 |].
  eexists. split; [reflexivity | apply H6; reflexivity].
Defined.

Lemma animate_moves_every_flake_down_witness :
  pool_ok (rainflakes restarted_controller) (env restarted)
  /\ (animate restarted_controller (env restarted)).1 = restarted_controller
  /\ get_top 2 (animate restarted_controller (env restarted)).2 = Int 50
  /\ get_left 2 (animate restarted_controller (env restarted)).2 = Int 100
  /\ is_attached 2 (animate restarted_controller (env restarted)).2 = true.
Proof.
  assert (pool_ok (rainflakes restarted_controller) (env restarted)) as Hok.
  { split; [apply (bool_decide_unpack _); vm_compute; exact I|].
    apply Forall_forall. repeat constructor. }
  assert (forall f, f ∈ rainflakes restarted_controller ->
            box_out (document restarted_controller) f
                    (fall f restarted_controller (env restarted)) = false) as Hin.
  { apply Forall_forall. repeat constructor. }
  assert (2%nat ∈ rainflakes restarted_controller) as H2 by (cbn; list_mem).
  destruct (animate_moves_every_flake_down restarted_controller (env restarted) Hok Hin)
    as [H H'].
  split; [exact Hok|]. split; [exact H|]. exact (H' 2%nat H2).
Defined.

Lemma animate_skips_the_flake_after_a_removed_one_witness :
  let r := animate restarted_controller (env restarted_late) in
  controllers restarted_late !! 0%nat = Some restarted_controller
  /\ get_top 0 (env restarted_late) = Int 150
  /\ get_top 1 (env restarted_late) = Int 150
  /\ rainflakes r.1 !! 0%nat = Some 1%nat
  /\ flakes r.2 !! 1%nat = flakes (env restarted_late) !! 1%nat
  /\ (0%nat ∉ rainflakes r.1).
Proof.
  do 3 (split; [reflexivity|]).
  exact (animate_skips_the_flake_after_a_removed_one 3 0 restarted_controller
           (env restarted_late) 0 1 restarted_late_ok eq_refl eq_refl eq_refl).
Defined.

Lemma pool_size_is_steady_witness :
  let w := after (command "clear" scenario) in
  let ts := [Tick 0; Delay 0; Tick 0; Tick 0] in
  controllers w !! 0%nat = Some (set_rainflakes [] scenario_controller)
  /\ pending 0 (timeouts (env w)) = []
  /\ exists this', controllers (elapse ts w) !! 0%nat = Some this'
       /\ length (rainflakes this') = 0%nat
       /\ pending 0 (timeouts (env (elapse ts w))) = [].
Proof.
  intros w ts. do 2 (split; [reflexivity|]).
  exact (pool_size_is_steady w 0 (set_rainflakes [] scenario_controller) ts eq_refl eq_refl).
Defined.

Lemma generate_fills_the_pool_witness :
  let w := main aSocketrain_CONFIG {| width := Int 100; height := Int 100 |} midway in
  launched {| LIMIT := 30; BLUR := 0; FALL_RATE := 50; SWAY_RATE := 0 |} 0 w
  /\ exists ts this, Forall (fun t => exists n, t = Delay n) ts
       /\ controllers (elapse ts w) !! 0%nat = Some this
       /\ Z.of_nat (length (rainflakes this)) = 30
       /\ active this = true
       /\ pending 0 (timeouts (env (elapse ts w))) = [].
Proof.
  intros w.
  assert (launched {| LIMIT := 30; BLUR := 0; FALL_RATE := 50; SWAY_RATE := 0 |} 0 w) as H.
  { apply launched_by_main; [reflexivity | vm_compute; discriminate]. }
  split; [exact H|].
  exact (generate_fills_the_pool _ 0 w H).
Defined.

Lemma command_clear_empties_every_pool_witness :
  controllers overfull !! 0%nat
  = Some (set_interval (Some 3%nat) (set_rainflakes [0%nat; 1%nat] scenario_controller))
  /\ exists w', command "clear" overfull = Normal w'
       /\ length (controllers w') = 1%nat
       /\ controllers w' !! 0%nat
          = Some (set_interval (Some 3%nat) (set_rainflakes [] scenario_controller))
       /\ is_attached 0 (env w') = false /\ is_attached 1 (env w') = false.
Proof.
  split; [reflexivity|].
  destruct (command_clear_empties_every_pool overfull _ eq_refl) as (w' & H1 & H2 & H3 & H4).
  exists w'. split_and!; [exact H1 | exact H2 | exact (H3 0%nat _ eq_refl) | |].
  - apply (H4 0%nat _ 0%nat eq_refl). cbn. list_mem.
  - apply (H4 0%nat _ 1%nat eq_refl). cbn. list_mem.
Defined.

Lemma command_stop_freezes_the_page_witness :
  let ts := [Tick 0; Delay 0; Tick 0] in
  let w' := after (command "stop" scenario) in
  controllers scenario = [scenario_controller]
  /\ command "stop" scenario = Normal w'
  /\ controllers w' = [scenario_stopped]
  /\ flakes (env w') = flakes (env scenario)
  /\ intervals (env w') = []
  /\ controllers (elapse ts w') = controllers w'
  /\ flakes (env (elapse ts w')) = flakes (env w').
Proof.
  intros ts w'.
  destruct (command_stop_freezes_the_page scenario ts scenario_reachable)
    as (H1 & _ & H3 & H4 & H5 & H6).
  split_and!; [reflexivity | exact H1 | reflexivity | exact H3 | exact H4 | exact H5 | exact H6].
Defined.

Lemma on_resize_shifts_every_layer_witness :
  let w' := on_resize (Int 140) (Int 90) scenario in
  controllers scenario !! 0%nat = Some scenario_controller
  /\ 0%nat ∈ rainflakes scenario_controller
  /\ controllers w' !! 0%nat
     = Some (set_document {| width := Int 140; height := Int 90 |} scenario_controller)
  /\ get_left 0 (env w') = Int 90
  /\ get_top 0 (env w') = Int (-10).
Proof.
  intros w'.
  assert (0%nat ∈ rainflakes scenario_controller) as H2 by now apply list_elem_of_singleton.
  split; [reflexivity|]. split; [exact H2|].
  exact (on_resize_shifts_every_layer scenario 0 scenario_controller 0 (Int 140) (Int 90)
           scenario_reachable eq_refl H2).
Defined.

Lemma main_builds_one_controller_per_layer_witness :
  let doc := {| width := Int 100; height := Int 100 |} in
  aSocketrain_CONFIG !! 2%nat = Some {| LIMIT := 30; BLUR := 0; FALL_RATE := 30; SWAY_RATE := 0 |}
  /\ length (controllers (main aSocketrain_CONFIG doc midway)) = 3%nat
  /\ started {| LIMIT := 30; BLUR := 0; FALL_RATE := 30; SWAY_RATE := 0 |} doc 2
             (main aSocketrain_CONFIG doc midway).
Proof.
  intros doc.
  destruct (main_builds_one_controller_per_layer aSocketrain_CONFIG doc midway)
    as (H1 & _ & H3).
  split_and!; [reflexivity | exact H1 | exact (H3 2%nat _ eq_refl)].
Defined.

Lemma timers_never_move_a_flake_sideways_witness :
  let ts := [Tick 0; Delay 0; Tick 0] in
  (1 < length (flakes (env restarted_late)))%nat
  /\ get_left 1 (env restarted_late) = Int 100
  /\ get_left 1 (env (elapse ts restarted_late)) = get_left 1 (env restarted_late)
  /\ (is_attached 1 (env restarted_late) = false ->
      is_attached 1 (env (elapse ts restarted_late)) = false).
Proof.
  intros ts.
  assert (1 < length (flakes (env restarted_late)))%nat as H by (vm_compute; lia).
  split; [exact H|]. split; [reflexivity|].
  exact (timers_never_move_a_flake_sideways restarted_late ts 1 H).
Defined.

Lemma command_remove_drops_the_last_flake_witness :
  controllers overfull !! 0%nat
  = Some (set_interval (Some 3%nat) (set_rainflakes [0%nat; 1%nat] scenario_controller))
  /\ command "remove" overfull
     = TypeError {| controllers :=
                      [set_interval (Some 3%nat) (set_rainflakes [0%nat] scenario_controller)];
                    env := env overfull |}
  /\ is_attached 1 (env overfull) = true.
Proof.
  split; [reflexivity|]. split; [|reflexivity].
  exact (command_remove_drops_the_last_flake overfull _ eq_refl).
Defined.

Lemma one_interval_per_running_controller_witness :
  controllers scenario !! 0%nat = Some scenario_controller
  /\ filter (fun r => r.2 = 0%nat) (intervals (env scenario)) = [(2%nat, 0%nat)]
  /\ (active scenario_controller = true <-> is_Some (interval scenario_controller)).
Proof.
  split; [reflexivity|].
  exact (one_interval_per_running_controller scenario 0 scenario_controller
           scenario_reachable eq_refl).
Defined.
